(** * Verification of the CoGeLoT collation layer and episode replay buffer

    Shallow embedding of
    - [cogelot/data/collate.py] (the variable-dimension batch collator and
      the composite collators built on it), and
    - [cogelot/environment/replay_buffer.py] (the [ReplayBuffer] class),
    together with the properties the specification states about them.

    Python exceptions are modelled by an error monad, torch tensors by a
    shape together with their row-major contents, Python dictionaries by
    stdpp's [gmap]. *)

From Stdlib Require Import ZArith Lia.
From stdpp Require Import base option list strings gmap.

Set Default Proof Using "Type".

(** ** Exceptions *)

(** The Python exceptions the modelled code can raise. *)
Inductive exn := IndexError | ValueError | KeyError | RuntimeError.

(** A computation either returns a value or raises. *)
Inductive result (T : Type) :=
  | Ok (v : T)
  | Raise (e : exn).
Arguments Ok {T} v.
Arguments Raise {T} e.

#[global] Instance result_ret : MRet result := λ T v, Ok v.
#[global] Instance result_bind : MBind result := λ T U f m,
  match m with
  | Ok v => f v
  | Raise e => Raise e
  end.
#[global] Instance result_fmap : FMap result := λ T U f m,
  match m with
  | Ok v => Ok (f v)
  | Raise e => Raise e
  end.

#[global] Instance exn_eq_dec : EqDecision exn.
Proof. solve_decision. Defined.

(** [l[i]] on a Python list: negative indices count from the end, an index
    out of range raises [IndexError]. *)
Definition py_getitem {T} (l : list T) (i : Z) : result T :=
  let j := if decide (0 ≤ i)%Z then i else (Z.of_nat (length l) + i)%Z in
  if decide (0 ≤ j)%Z then
    match l !! Z.to_nat j with
    | Some v => Ok v
    | None => Raise IndexError
    end
  else Raise IndexError.

(** A [for x in xs] loop whose body updates the state [st] and may raise. *)
Fixpoint for_in {X S} (xs : list X) (body : X → S → result S) (st : S) : result S :=
  match xs with
  | [] => Ok st
  | x :: xs' => st' ← body x st; for_in xs' body st'
  end.

(** A [for x, y in zip(xs, ys, strict=True)] loop: when one of the lists
    ends before the other, [ValueError] is raised at that point, after the
    iterations on the common prefix. *)
Fixpoint for_zip_strict {X Y S} (xs : list X) (ys : list Y)
    (body : X → Y → S → result S) (st : S) : result S :=
  match xs, ys with
  | [], [] => Ok st
  | x :: xs', y :: ys' => st' ← body x y st; for_zip_strict xs' ys' body st'
  | _, _ => Raise ValueError
  end.

(** ** Tensors *)

(** A torch tensor: its [shape] (one extent per axis) and its contents in
    row-major order, as contiguous storage holds them. *)
Record Tensor (A : Type) := mkTensor {
  shape : list nat;
  data : list A;
}.
Arguments mkTensor {A} shape data.
Arguments shape {A} t.
Arguments data {A} t.

(** Conversion of a Python number to the element type of a tensor, as done
    when a tensor is filled with a scalar. *)
Class Dtype (A : Type) := cast : Z → A.
#[global] Instance dtype_int : Dtype Z := λ z, z.
#[global] Instance dtype_bool : Dtype bool := λ z, negb (z =? 0)%Z.

Section tensor.
Context {A : Type}.
Implicit Types (t : Tensor A) (s : list nat) (d : list A).

(** Number of elements of a tensor of shape [s]. *)
Definition numel s : nat := foldr Nat.mul 1 s.

(** Every torch tensor holds exactly [numel] elements. *)
Definition wf t : Prop := length (data t) = numel (shape t).

(** The [i]-th block of [m] consecutive elements. *)
Definition chunk (m i : nat) d : list A := take m (drop (i * m) d).

Definition chunks (n m : nat) d : list (list A) :=
  map (λ i, chunk m i d) (seq 0 n).

(** [t[i]]: the sub-tensor at position [i] of the leading axis. *)
Definition select t (i : nat) : result (Tensor A) :=
  match shape t with
  | [] => Raise IndexError
  | n :: s =>
      if decide (i < n) then Ok (mkTensor s (chunk (numel s) i (data t)))
      else Raise IndexError
  end.

(** The element at a full multi-index, [None] outside the shape. *)
Fixpoint lookup_at s d (idx : list nat) : option A :=
  match s, idx with
  | [], [] => head d
  | n :: s', i :: idx' =>
      if decide (i < n) then lookup_at s' (chunk (numel s') i d) idx'
      else None
  | _, _ => None
  end.

Definition tget t (idx : list nat) : option A :=
  lookup_at (shape t) (data t) idx.

(** [idx] addresses an element of a tensor of shape [s]. *)
Definition in_bounds s (idx : list nat) : Prop := Forall2 lt idx s.

#[global] Instance in_bounds_dec s idx : Decision (in_bounds s idx).
Proof. unfold in_bounds. apply _. Defined.

(** [torch.stack(ts, dim=0)]: all tensors must have the same shape, and
    the list must not be empty. *)
Definition stack (ts : list (Tensor A)) : result (Tensor A) :=
  match ts with
  | [] => Raise RuntimeError
  | t0 :: _ =>
      if decide (Forall (λ u, shape u = shape t0) ts)
      then Ok (mkTensor (length ts :: shape t0) (concat (map data ts)))
      else Raise RuntimeError
  end.

(** [t.squeeze(0)]: drops the leading axis when its extent is 1, and
    leaves every other tensor (also one of rank 0) as it is. *)
Definition squeeze0 t : Tensor A :=
  match shape t with
  | 1 :: s => mkTensor s (data t)
  | _ => t
  end.

(** [t.unsqueeze(0)]: a new leading axis of extent 1. *)
Definition unsqueeze0 t : Tensor A := mkTensor (1 :: shape t) (data t).

(** *** Constant padding *)

(** The argument of [torch.nn.functional.pad] is a flat list
    [(left, right)] per axis, starting from the LAST axis.  An odd
    length is an error. *)
Fixpoint pad_pairs (padding : list Z) : result (list (Z * Z)) :=
  match padding with
  | [] => Ok []
  | l :: r :: rest => ps ← pad_pairs rest; Ok ((l, r) :: ps)
  | [_] => Raise RuntimeError
  end.

Definition padded_shape s (amounts : list (nat * nat)) : list nat :=
  zip_with (λ n lr, lr.1 + n + lr.2) s amounts.

(** The amounts of a padding that only extends axes at their end. *)
Definition right_only (rs : list nat) : list (nat * nat) := map (λ r, (0, r)) rs.

(** Contents of the padded tensor, axis by axis from the leading one:
    every block of the leading axis is padded along the remaining axes,
    and whole blocks of [fill] are put before and after them. *)
Fixpoint pad_data (fill : A) s (amounts : list (nat * nat)) d : list A :=
  match s, amounts with
  | n :: s', (l, r) :: amounts' =>
      let inner := numel (padded_shape s' amounts') in
      replicate (l * inner) fill
      ++ concat (map (pad_data fill s' amounts') (chunks n (numel s') d))
      ++ replicate (r * inner) fill
  | _, _ => d
  end.

(** [torch.nn.functional.pad(t, padding, value=value)] in its default
    constant mode: the result has the enlarged shape, holds [t] in the
    region its amounts leave, and [value] elsewhere.  Axes the list does
    not reach are not padded; a list longer than twice the rank is an
    error.  Two choices of this model: a result with an axis of extent 0
    is accepted (as a tensor with an empty axis is anywhere else); and
    negative amounts, on which torch crops, are treated as an error: the
    collator passes deficits only, which are never negative
    ([padding_needed_nonneg]), so that every result proved below shows
    that this case is not reached. *)
Definition pad t (padding : list Z) (value : A) : result (Tensor A) :=
  pairs ← pad_pairs padding;
  if decide (length pairs ≤ length (shape t)) then
    if decide (Forall (λ lr : Z * Z, (0 ≤ lr.1)%Z ∧ (0 ≤ lr.2)%Z) pairs) then
      let amounts :=
        replicate (length (shape t) - length pairs) (0, 0)
        ++ reverse (map (λ lr : Z * Z, (Z.to_nat lr.1, Z.to_nat lr.2)) pairs) in
      Ok (mkTensor (padded_shape (shape t) amounts)
                   (pad_data value (shape t) amounts (data t)))
    else Raise RuntimeError
  else Raise RuntimeError.
End tensor.

(** ** Integer matrices

    The collator computes with the shapes themselves as a 2-axis integer
    tensor [instances, dims]; a list of rows models it. *)
Section int_matrix.
Implicit Types (m : list (list Z)) (row : list Z).

(** [torch.tensor(rows)]: rows of different lengths are an error. *)
Definition tensor_of_rows (rows : list (list Z)) : result (list (list Z)) :=
  match rows with
  | [] => Ok []
  | r0 :: _ =>
      if decide (Forall (λ r, length r = length r0) rows) then Ok rows
      else Raise ValueError
  end.

(** [m.max(dim=0).values]: the maximum of every column. *)
Definition max_dim0 m : result (list Z) :=
  match m with
  | [] => Raise IndexError
  | r0 :: rs => Ok (foldl (zip_with Z.max) r0 rs)
  end.

(** [v - m], the row vector [v] broadcast over the rows of [m]. *)
Definition broadcast_sub row m : list (list Z) :=
  map (λ r, zip_with Z.sub row r) m.

(** [torch.all(row == 0)] and [torch.all(m == 0)]. *)
Definition all_zero row : bool := forallb (λ z, z =? 0)%Z row.
Definition all_zero_matrix m : bool := forallb all_zero m.

Definition zeros_like row : list Z := replicate (length row) 0%Z.

(** [m.flip(1)] and [m.transpose(0, 1)]; the number of columns is that
    of the first row. *)
Definition flip1 m : list (list Z) := map reverse m.

Definition transpose m : list (list Z) :=
  match m with
  | [] => []
  | r0 :: _ => map (λ j, map (λ r, nth j r 0%Z) m) (seq 0 (length r0))
  end.

(** [m.rot90()] is by definition [m.flip(1).transpose(0, 1)];
    [m.fliplr()] is [m.flip(1)]; [m.flatten()] concatenates the rows. *)
Definition rot90 m : list (list Z) := transpose (flip1 m).
Definition fliplr m : list (list Z) := flip1 m.
Definition flatten m : list Z := concat m.
End int_matrix.

(** ** [collate_variable_ndim_batch] *)

(** Default of the [padding_value] argument. *)
Definition padding_value_default : Z := 0.

Section collate.
Context {A : Type} `{!Dtype A}.

(** The flat padding list of one tensor, in the form
    [(0, i, 0, j, ..., 0, k)]. *)
Definition padding_of (padding_needed_per_dim : list Z) : list Z :=
  flatten (fliplr (rot90
    [padding_needed_per_dim; zeros_like padding_needed_per_dim])).

(** The body of the loop over [zip(batch, padding_needed_per_tensor)]. *)
Definition loop_body (padding_value : Z) (tensor : Tensor A)
    (padding_needed_per_dim : list Z) (padded_tensors : list (Tensor A))
    : result (list (Tensor A)) :=
  if all_zero padding_needed_per_dim then Ok (padded_tensors ++ [tensor])
  else
    let padding := padding_of padding_needed_per_dim in
    padded_tensor ← pad tensor padding (cast padding_value);
    Ok (padded_tensors ++ [padded_tensor]).

Definition collate_variable_ndim_batch
    (batch : list (Tensor A)) (padding_value : Z) : result (Tensor A) :=
  (* batch[0].device *)
  _ ← py_getitem batch 0;
  shape_per_tensor ← tensor_of_rows (map (λ i, map Z.of_nat (shape i)) batch);
  max_size_per_dim ← max_dim0 shape_per_tensor;
  let padding_needed_per_tensor := broadcast_sub max_size_per_dim shape_per_tensor in
  if all_zero_matrix padding_needed_per_tensor then stack batch
  else
    padded_tensors ←
      for_zip_strict batch padding_needed_per_tensor (loop_body padding_value) [];
    stack padded_tensors.
End collate.


(** ** Composite collators *)

(** [d[k]] on a Python dictionary. *)
Definition dict_getitem {V} (d : gmap string V) (k : string) : result V :=
  match d !! k with
  | Some v => Ok v
  | None => Raise KeyError
  end.

(** [get_args(ObjectFeatureName)] and [get_args(ViewLiteral)]. *)
Definition ObjectFeatureName : list string := ["bbox"; "cropped_img"; "mask"].
Definition ViewLiteral : list string := ["front"; "top"].

(** Default of [collate_action_batch]'s [padding_value]. *)
Definition action_padding_value_default : Z := (-100).

Section composite.
Context {A : Type} `{!Dtype A}.

(** [get_args(PoseActionType)]: the literal type is declared in
    [cogelot.structures.vima], so its tuple of names is a parameter. *)
Variable PoseActionType : list string.

(** The collation of one leaf of a nested feature map: the tensors found
    under [object_feature_name] and [view_name] in every element, through
    the scalar collator. *)
Definition object_leaf (image_batches : list (gmap string (gmap string (Tensor A))))
    (object_feature_name view_name : string) (padding_value : Z)
    : result (Tensor A) :=
  leaves ← mapM (λ image_batch,
              features ← dict_getitem image_batch object_feature_name;
              dict_getitem features view_name) image_batches;
  collate_variable_ndim_batch leaves padding_value.

(** The collation of one key of a flat feature map. *)
Definition flat_leaf (batches : list (gmap string (Tensor A)))
    (key : string) (padding_value : Z) : result (Tensor A) :=
  leaves ← mapM (λ batch, dict_getitem batch key) batches;
  collate_variable_ndim_batch leaves padding_value.

Definition collate_object_features
    (image_batches : list (gmap string (gmap string (Tensor A))))
    : result (gmap string (gmap string (Tensor A))) :=
  for_in ObjectFeatureName (λ object_feature_name output,
    let output := <[object_feature_name := ∅]> output in
    for_in ViewLiteral (λ view_name output,
      leaves ← mapM (λ image_batch,
                  features ← dict_getitem image_batch object_feature_name;
                  dict_getitem features view_name) image_batches;
      collated ← collate_variable_ndim_batch leaves padding_value_default;
      views ← dict_getitem output object_feature_name;
      Ok (<[object_feature_name := <[view_name := collated]> views]> output))
    output) ∅.

Definition collate_rgb_images (rgb_images : list (gmap string (Tensor A)))
    : result (gmap string (Tensor A)) :=
  for_in ViewLiteral (λ view_name output,
    leaves ← mapM (λ rgb_image, dict_getitem rgb_image view_name) rgb_images;
    collated ← collate_variable_ndim_batch leaves padding_value_default;
    Ok (<[view_name := collated]> output)) ∅.

Definition collate_action_batch (batches : list (gmap string (Tensor A)))
    (padding_value : Z) : result (gmap string (Tensor A)) :=
  for_in PoseActionType (λ pose_action_type output,
    leaves ← mapM (λ batch, dict_getitem batch pose_action_type) batches;
    collated ← collate_variable_ndim_batch leaves padding_value;
    Ok (<[pose_action_type := collated]> output)) ∅.
End composite.

(** ** The replay buffer *)

Section replay_buffer.
(** Raw observations, the dictionaries of continuous actions and the
    validated [PoseAction] records are stored and never inspected.
    Encoded tensors have elements of type [E], masks are boolean. *)
Context {Observation ContinuousActions PoseAction E : Type} `{!Dtype E}.

(** [PoseAction.model_validate({"index": index, **continuous_actions})],
    declared in [cogelot.structures.vima]: validation is a parameter. *)
Variable model_validate : nat → ContinuousActions → result PoseAction.

Record ReplayBuffer := mkReplayBuffer {
  _observations : list Observation;
  _actions : list PoseAction;
  _success_per_step : list bool;
  _encoded_prompt : list (Tensor E);
  _encoded_prompt_mask : list (Tensor bool);
  _encoded_observations : list (Tensor E);
  _encoded_observation_masks : list (Tensor bool);
  _encoded_actions : list (Tensor E);
  _encoded_action_masks : list (Tensor bool);
}.

Definition __init__ : ReplayBuffer :=
  {| _observations := []; _actions := []; _success_per_step := [];
     _encoded_prompt := []; _encoded_prompt_mask := [];
     _encoded_observations := []; _encoded_observation_masks := [];
     _encoded_actions := []; _encoded_action_masks := [] |}.

Definition num_observations (self : ReplayBuffer) : nat :=
  length (_encoded_observations self).

Definition num_actions (self : ReplayBuffer) : nat :=
  length (_encoded_actions self).

Definition __len__ (self : ReplayBuffer) : nat := num_actions self.

Definition success_per_step (self : ReplayBuffer) : list bool :=
  _success_per_step self.

Definition observations (self : ReplayBuffer) : list Observation :=
  _observations self.

(** [try: return self._success_per_step[-1]  except IndexError: return False] *)
Definition is_successful (self : ReplayBuffer) : result bool :=
  match py_getitem (_success_per_step self) (-1) with
  | Ok flag => Ok flag
  | Raise IndexError => Ok false
  | Raise e => Raise e
  end.

Definition update_success_tracker (is_successful : bool) (self : ReplayBuffer)
    : ReplayBuffer :=
  {| _observations := _observations self; _actions := _actions self;
     _success_per_step := _success_per_step self ++ [is_successful];
     _encoded_prompt := _encoded_prompt self;
     _encoded_prompt_mask := _encoded_prompt_mask self;
     _encoded_observations := _encoded_observations self;
     _encoded_observation_masks := _encoded_observation_masks self;
     _encoded_actions := _encoded_actions self;
     _encoded_action_masks := _encoded_action_masks self |}.

(** The [encoded_prompt] property and its setter. *)
Definition encoded_prompt (self : ReplayBuffer) : result (Tensor E) :=
  py_getitem (_encoded_prompt self) 0.

Definition set_encoded_prompt (encoded_prompt : Tensor E) (self : ReplayBuffer)
    : result ReplayBuffer :=
  match _encoded_prompt self with
  | _ :: _ => Raise ValueError
  | [] =>
      Ok {| _observations := _observations self; _actions := _actions self;
            _success_per_step := _success_per_step self;
            _encoded_prompt := _encoded_prompt self ++ [encoded_prompt];
            _encoded_prompt_mask := _encoded_prompt_mask self;
            _encoded_observations := _encoded_observations self;
            _encoded_observation_masks := _encoded_observation_masks self;
            _encoded_actions := _encoded_actions self;
            _encoded_action_masks := _encoded_action_masks self |}
  end.

(** The [encoded_prompt_mask] property and its setter. *)
Definition encoded_prompt_mask (self : ReplayBuffer) : result (Tensor bool) :=
  py_getitem (_encoded_prompt_mask self) 0.

Definition set_encoded_prompt_mask (encoded_prompt_mask : Tensor bool)
    (self : ReplayBuffer) : result ReplayBuffer :=
  match _encoded_prompt_mask self with
  | _ :: _ => Raise ValueError
  | [] =>
      Ok {| _observations := _observations self; _actions := _actions self;
            _success_per_step := _success_per_step self;
            _encoded_prompt := _encoded_prompt self;
            _encoded_prompt_mask := _encoded_prompt_mask self ++ [encoded_prompt_mask];
            _encoded_observations := _encoded_observations self;
            _encoded_observation_masks := _encoded_observation_masks self;
            _encoded_actions := _encoded_actions self;
            _encoded_action_masks := _encoded_action_masks self |}
  end.

(** The derived views: squeeze the batch axis and the step axis of every
    stored tensor, collate, and put the batch axis back. *)
Definition encoded_observations (self : ReplayBuffer) : result (Tensor E) :=
  let observations :=
    map (λ tensor, squeeze0 (squeeze0 tensor)) (_encoded_observations self) in
  collated_observations ←
    collate_variable_ndim_batch observations padding_value_default;
  Ok (unsqueeze0 collated_observations).

Definition encoded_observation_masks (self : ReplayBuffer) : result (Tensor bool) :=
  let masks :=
    map (λ tensor, squeeze0 (squeeze0 tensor)) (_encoded_observation_masks self) in
  collated_masks ← collate_variable_ndim_batch masks padding_value_default;
  Ok (unsqueeze0 collated_masks).

Definition encoded_actions (self : ReplayBuffer) : result (option (Tensor E)) :=
  match _encoded_actions self with
  | [] => Ok None
  | _ :: _ =>
      let actions :=
        map (λ tensor, squeeze0 (squeeze0 tensor)) (_encoded_actions self) in
      collated_actions ← collate_variable_ndim_batch actions padding_value_default;
      Ok (Some (unsqueeze0 collated_actions))
  end.

Definition encoded_actions_mask (self : ReplayBuffer)
    : result (option (Tensor bool)) :=
  match _encoded_action_masks self with
  | [] => Ok None
  | _ :: _ =>
      let masks :=
        map (λ tensor, squeeze0 (squeeze0 tensor)) (_encoded_action_masks self) in
      collated_masks ← collate_variable_ndim_batch masks padding_value_default;
      Ok (Some (unsqueeze0 collated_masks))
  end.

Definition add_observation (observation : Observation) (self : ReplayBuffer)
    : ReplayBuffer :=
  {| _observations := _observations self ++ [observation];
     _actions := _actions self;
     _success_per_step := _success_per_step self;
     _encoded_prompt := _encoded_prompt self;
     _encoded_prompt_mask := _encoded_prompt_mask self;
     _encoded_observations := _encoded_observations self;
     _encoded_observation_masks := _encoded_observation_masks self;
     _encoded_actions := _encoded_actions self;
     _encoded_action_masks := _encoded_action_masks self |}.

Definition add_action (continuous_actions : ContinuousActions)
    (self : ReplayBuffer) : result ReplayBuffer :=
  parsed_actions ← model_validate (length (_actions self)) continuous_actions;
  Ok {| _observations := _observations self;
        _actions := _actions self ++ [parsed_actions];
        _success_per_step := _success_per_step self;
        _encoded_prompt := _encoded_prompt self;
        _encoded_prompt_mask := _encoded_prompt_mask self;
        _encoded_observations := _encoded_observations self;
        _encoded_observation_masks := _encoded_observation_masks self;
        _encoded_actions := _encoded_actions self;
        _encoded_action_masks := _encoded_action_masks self |}.

Definition add_next_encoded_observation (encoded_observation : Tensor E)
    (encoded_observation_mask : Tensor bool) (self : ReplayBuffer)
    : ReplayBuffer :=
  {| _observations := _observations self; _actions := _actions self;
     _success_per_step := _success_per_step self;
     _encoded_prompt := _encoded_prompt self;
     _encoded_prompt_mask := _encoded_prompt_mask self;
     _encoded_observations := _encoded_observations self ++ [encoded_observation];
     _encoded_observation_masks :=
       _encoded_observation_masks self ++ [encoded_observation_mask];
     _encoded_actions := _encoded_actions self;
     _encoded_action_masks := _encoded_action_masks self |}.

Definition add_next_encoded_action (encoded_action : Tensor E)
    (encoded_action_mask : Tensor bool) (self : ReplayBuffer) : ReplayBuffer :=
  {| _observations := _observations self; _actions := _actions self;
     _success_per_step := _success_per_step self;
     _encoded_prompt := _encoded_prompt self;
     _encoded_prompt_mask := _encoded_prompt_mask self;
     _encoded_observations := _encoded_observations self;
     _encoded_observation_masks := _encoded_observation_masks self;
     _encoded_actions := _encoded_actions self ++ [encoded_action];
     _encoded_action_masks := _encoded_action_masks self ++ [encoded_action_mask] |}.

(** [reset] assigns a new empty list to every attribute (its log line is
    not part of the buffer). *)
Definition reset (self : ReplayBuffer) : ReplayBuffer :=
  {| _encoded_prompt := []; _encoded_prompt_mask := [];
     _encoded_observations := []; _encoded_observation_masks := [];
     _encoded_actions := []; _encoded_action_masks := [];
     _success_per_step := []; _observations := []; _actions := [] |}.

(** *** Call sequences

    One call on the buffer; [step] gives the buffer after the call, or the
    exception it raised. *)
Inductive call :=
  | AddObservation (observation : Observation)
  | AddAction (continuous_actions : ContinuousActions)
  | UpdateSuccessTracker (is_successful : bool)
  | SetEncodedPrompt (encoded_prompt : Tensor E)
  | SetEncodedPromptMask (encoded_prompt_mask : Tensor bool)
  | AddNextEncodedObservation (tensor : Tensor E) (mask : Tensor bool)
  | AddNextEncodedAction (tensor : Tensor E) (mask : Tensor bool)
  | CallReset.

Definition step (c : call) (self : ReplayBuffer) : result ReplayBuffer :=
  match c with
  | AddObservation o => Ok (add_observation o self)
  | AddAction a => add_action a self
  | UpdateSuccessTracker f => Ok (update_success_tracker f self)
  | SetEncodedPrompt t => set_encoded_prompt t self
  | SetEncodedPromptMask m => set_encoded_prompt_mask m self
  | AddNextEncodedObservation t m => Ok (add_next_encoded_observation t m self)
  | AddNextEncodedAction t m => Ok (add_next_encoded_action t m self)
  | CallReset => Ok (reset self)
  end.

(** The buffer a caller holds after a call: a call that raises does so
    before it changes any attribute. *)
Definition after (c : call) (self : ReplayBuffer) : ReplayBuffer :=
  match step c self with
  | Ok self' => self'
  | Raise _ => self
  end.

Definition run (calls : list call) (self : ReplayBuffer) : ReplayBuffer :=
  foldl (λ b c, after c b) self calls.

Definition is_reset (c : call) : bool :=
  match c with CallReset => true | _ => false end.

(** The number of [add_next_encoded_action] calls after the last [reset],
    counted on the calls, starting from [n]. *)
Definition encoded_actions_since_reset (n : nat) (calls : list call) : nat :=
  foldl (λ k c,
    match c with
    | CallReset => 0
    | AddNextEncodedAction _ _ => S k
    | _ => k
    end) n calls.
(** The encoded tensors, the masks and the success flags appended after
    the last [reset], read off the calls. *)
Definition recorded_observations (calls : list call) : list (Tensor E) :=
  foldl (λ acc c,
    match c with
    | CallReset => []
    | AddNextEncodedObservation t _ => acc ++ [t]
    | _ => acc
    end) [] calls.

Definition recorded_observation_masks (calls : list call) : list (Tensor bool) :=
  foldl (λ acc c,
    match c with
    | CallReset => []
    | AddNextEncodedObservation _ m => acc ++ [m]
    | _ => acc
    end) [] calls.

Definition recorded_actions (calls : list call) : list (Tensor E) :=
  foldl (λ acc c,
    match c with
    | CallReset => []
    | AddNextEncodedAction t _ => acc ++ [t]
    | _ => acc
    end) [] calls.

Definition recorded_action_masks (calls : list call) : list (Tensor bool) :=
  foldl (λ acc c,
    match c with
    | CallReset => []
    | AddNextEncodedAction _ m => acc ++ [m]
    | _ => acc
    end) [] calls.

Definition recorded_flags (calls : list call) : list bool :=
  foldl (λ acc c,
    match c with
    | CallReset => []
    | UpdateSuccessTracker f => acc ++ [f]
    | _ => acc
    end) [] calls.

(** The extent of the feature axis of a stored [(1, 1, d)] tensor. *)
Definition feature_dim {T} (t : Tensor T) : nat := nth 2 (shape t) 0.
End replay_buffer.

(** ** Further collators of [collate.py] *)

Module Collate.
Section observation.
Context {A : Type} `{!Dtype A}.

(** The [Observation] typed dictionary of [collate.py]: its three keys. *)
Record Observation := mkObservation {
  ee : Tensor A;
  objects : gmap string (gmap string (Tensor A));
  rgb : gmap string (Tensor A);
}.

Definition collate_observation_batch (observations : list Observation)
    : result Observation :=
  end_effectors ←
    collate_variable_ndim_batch (map ee observations) padding_value_default;
  objects ← collate_object_features (map objects observations);
  rgb ← collate_rgb_images (map rgb observations);
  Ok (mkObservation end_effectors objects rgb).

(** [{**object_features, "rgb": rgb}]: the object features with the key
    "rgb" set. *)
Definition collate_image_batch
    (image_batches : list (gmap string (gmap string (Tensor A))))
    : result (gmap string (gmap string (Tensor A))) :=
  object_features ← collate_object_features image_batches;
  rgbs ← mapM (λ image_batch, dict_getitem image_batch "rgb") image_batches;
  rgb ← collate_rgb_images rgbs;
  Ok (<["rgb" := rgb]> object_features).
End observation.
End Collate.

(** ** [ReplayBuffer.to_model_instance] *)

Section to_model_instance.
Context {Observation PoseAction E ModelInstance : Type} `{!Dtype E}.

(** The constructor of [ModelInstance], declared in
    [cogelot.structures.model], with its six keyword arguments in the order
    the call gives them. *)
Variable new_ModelInstance :
  Tensor E → Tensor bool → Tensor E → Tensor bool →
  option (Tensor E) → option (Tensor bool) → result ModelInstance.

Definition to_model_instance (self : @ReplayBuffer Observation PoseAction E)
    : result ModelInstance :=
  encoded_prompt ← encoded_prompt self;
  encoded_prompt_mask ← encoded_prompt_mask self;
  encoded_observations ← encoded_observations self;
  encoded_observations_mask ← encoded_observation_masks self;
  encoded_actions ← encoded_actions self;
  encoded_actions_mask ← encoded_actions_mask self;
  new_ModelInstance encoded_prompt encoded_prompt_mask encoded_observations
    encoded_observations_mask encoded_actions encoded_actions_mask.
End to_model_instance.

(** The first encoded prompt set after the last [reset], read off the
    calls. *)
Definition recorded_prompt {Observation ContinuousActions E}
    (calls : list (@call Observation ContinuousActions E)) : option (Tensor E) :=
  foldl (λ acc c,
    match c with
    | CallReset => None
    | SetEncodedPrompt t => match acc with None => Some t | Some _ => acc end
    | _ => acc
    end) None calls.

(** ** [VIMAInstanceParser] of [parse.py] *)

(** [l[i] = v] on a Python list. *)
Definition py_setitem {T} (l : list T) (i : Z) (v : T) : result (list T) :=
  let j := if decide (0 ≤ i)%Z then i else (Z.of_nat (length l) + i)%Z in
  if decide (0 ≤ j < Z.of_nat (length l))%Z then Ok (<[Z.to_nat j := v]> l)
  else Raise IndexError.

Module Parse.
Section parser.
(** What the parser reads from disk and what it builds are outside this
    file: instance directories, the loaded trajectory metadata, the loaders
    [parse_pose_actions] and [parse_observations], the null action, the
    [success] entry of the metadata and the construction of the
    [VIMAInstance] (lines 170-188) are parameters. *)
Context {Path Metadata PoseAction Observation VIMAInstance : Type}.
Variable load_trajectory_metadata : Path → result Metadata.
Variable parse_pose_actions : Path → result (list PoseAction).
Variable parse_observations : Path → result (list Observation).
Variable get_null_action : PoseAction.
Variable metadata_success : Metadata → result bool.
Variable new_VIMAInstance :
  Path → Metadata → list PoseAction → list Observation → list bool →
  result VIMAInstance.

(** The parser object: its one attribute. *)
Record VIMAInstanceParser := mkParser { keep_null_action : bool }.

Definition _parse_pose_actions (self : VIMAInstanceParser) (instance_dir : Path)
    : result (list PoseAction) :=
  pose_actions ← parse_pose_actions instance_dir;
  if keep_null_action self then Ok (pose_actions ++ [get_null_action])
  else Ok pose_actions.

(** [observations[:num_pose_actions]] keeps the first [num_pose_actions]
    elements; the count is a length, never negative. *)
Definition _parse_observations (self : VIMAInstanceParser) (instance_dir : Path)
    (num_pose_actions : nat) : result (list Observation) :=
  observations ← parse_observations instance_dir;
  if negb (keep_null_action self) then Ok (take num_pose_actions observations)
  else Ok observations.

Definition _parse_success_per_step (self : VIMAInstanceParser)
    (num_actions : Z) (is_successful_at_end : bool) : result (list bool) :=
  let tracker := replicate (Z.to_nat num_actions) false in
  if negb is_successful_at_end then Ok tracker
  else
    tracker ← (if is_successful_at_end then py_setitem tracker (-1) true
               else Ok tracker);
    tracker ← (if is_successful_at_end && keep_null_action self
               then py_setitem tracker (-2) true
               else Ok tracker);
    Ok tracker.

Definition parse_from_instance_dir (self : VIMAInstanceParser)
    (instance_dir : Path) : result VIMAInstance :=
  trajectory_metadata ← load_trajectory_metadata instance_dir;
  pose_actions ← _parse_pose_actions self instance_dir;
  observations ← _parse_observations self instance_dir (length pose_actions);
  if negb (bool_decide (length observations = length pose_actions))
  then Raise ValueError
  else
    is_successful_at_end ← metadata_success trajectory_metadata;
    success_per_step ←
      _parse_success_per_step self (Z.of_nat (length pose_actions))
        is_successful_at_end;
    new_VIMAInstance instance_dir trajectory_metadata pose_actions
      observations success_per_step.
End parser.
End Parse.

(** ** The prompt transforms of [gobbledygook.py] *)

(** A Python string is a sequence of code points. *)
Definition char : Type := N.
#[global] Instance char_eq_dec : EqDecision char := N.eq_dec.

Definition space : char := 32%N.

(** [s.split(" ")]: the pieces between single spaces; never empty. *)
Fixpoint split (sep : char) (s : list char) : list (list char) :=
  match s with
  | [] => [[]]
  | c :: s' =>
      if decide (c = sep) then [] :: split sep s'
      else match split sep s' with
           | w :: ws => (c :: w) :: ws
           | [] => [[c]]
           end
  end.

(** [sep.join(words)] *)
Fixpoint join (sep : list char) (words : list (list char)) : list char :=
  match words with
  | [] => []
  | [w] => w
  | w :: ws => w ++ sep ++ join sep ws
  end.

(** [word.startswith(symbol)] *)
Definition startswith (word symbol : list char) : bool :=
  bool_decide (symbol `prefix_of` word).

(** [list(string.ascii_uppercase + string.ascii_lowercase)] *)
Definition ALPHABET : list char := map N.of_nat (seq 65 26 ++ seq 97 26).

Module Gobbledygook.
Section transforms.
(** The state of the [random] module is threaded through the calls.
    [random.choices(population, k=k)] and [random.shuffle(x)] are
    parameters; [LEFT_SYMBOL] is declared in
    [cogelot.modules.tokenizers.text]. *)
Context {RNG : Type}.
Variable random_choices : RNG → list char → nat → list char * RNG.
Variable LEFT_SYMBOL : list char.

Definition _generate_random_characters (g : RNG) (length : nat)
    : list char * RNG :=
  random_choices g ALPHABET length.

(** The body of the loop over [enumerate(words)], which assigns to
    [words[idx]] while it runs: the list keeps its length, and position
    [idx] is read when it is reached. *)
Definition replace_word (st : list (list char) * RNG) (idx : nat)
    : list (list char) * RNG :=
  let '(words, g) := st in
  match words !! idx with
  | None => (words, g)
  | Some word =>
      if startswith word LEFT_SYMBOL then (words, g)
      else
        let '(new_word, g) := _generate_random_characters g (length word) in
        (<[idx := new_word]> words, g)
  end.

Definition convert_language_prompt_to_gobbledygook (g : RNG)
    (prompt : list char) : list char * RNG :=
  let words := split space prompt in
  let '(words, g) := foldl replace_word (words, g) (seq 0 (length words)) in
  (join [space] words, g).

Section sequence.
Context {T : Type}.
Variable random_shuffle : RNG → list T → list T * RNG.

(** The first loop: the positions of the special words and the other
    words, in order. *)
Definition lock_words (word_sequence : list T) (is_special_fn : T → bool)
    : list nat * list T :=
  foldl (λ '(locked_positions, unlocked_words) '(word_index, word),
    let is_special := is_special_fn word in
    let unlocked_words :=
      if negb is_special then unlocked_words ++ [word] else unlocked_words in
    let locked_positions :=
      if is_special then locked_positions ++ [word_index]
      else locked_positions in
    (locked_positions, unlocked_words))
    ([], []) (zip (seq 0 (length word_sequence)) word_sequence).

(** The body of the second loop: [unlocked_words.pop(0)] raises
    [IndexError] on an empty list. *)
Definition put_back (locked_positions : list nat) (idx : nat)
    (st : list T * list T) : result (list T * list T) :=
  let '(shuffled_sequence, unlocked_words) := st in
  if bool_decide (idx ∉ locked_positions) then
    match unlocked_words with
    | [] => Raise IndexError
    | word :: unlocked_words =>
        Ok (<[idx := word]> shuffled_sequence, unlocked_words)
    end
  else Ok st.

Definition randomise_non_special_aspects_in_sequence (g : RNG)
    (word_sequence : list T) (is_special_fn : T → bool)
    : result (list T) * RNG :=
  let shuffled_sequence := word_sequence in
  let '(locked_positions, unlocked_words) :=
    lock_words word_sequence is_special_fn in
  let '(unlocked_words, g) := random_shuffle g unlocked_words in
  (st ← for_in (seq 0 (length shuffled_sequence)) (put_back locked_positions)
         (shuffled_sequence, unlocked_words);
   Ok st.1, g).
End sequence.

(** [GobbledyGookPromptWordTransform._randomise_order_of_non_special_words] *)
Definition _randomise_order_of_non_special_words
    (random_shuffle : RNG → list (list char) → list (list char) * RNG)
    (g : RNG) (prompt : list char) : result (list char) * RNG :=
  let '(words, g) :=
    randomise_non_special_aspects_in_sequence random_shuffle g
      (split space prompt) (λ word, startswith word LEFT_SYMBOL) in
  (words ← words; Ok (join [space] words), g).

(** [GobbledyGookPromptWordTransform.__call__]; [VIMAInstance] is declared
    in [cogelot.structures.vima]: [prompt] reads its field, and
    [model_copy_prompt instance p] is
    [instance.model_copy(deep=True, update={"prompt": p})]. *)
Definition __call__ {VIMAInstance : Type}
    (prompt : VIMAInstance → list char)
    (model_copy_prompt : VIMAInstance → list char → VIMAInstance)
    (random_shuffle : RNG → list (list char) → list (list char) * RNG)
    (g : RNG) (instance : VIMAInstance) : result VIMAInstance * RNG :=
  let '(gobbledygook_prompt, g) :=
    convert_language_prompt_to_gobbledygook g (prompt instance) in
  let '(gobbledygook_prompt, g) :=
    _randomise_order_of_non_special_words random_shuffle g
      gobbledygook_prompt in
  (gobbledygook_prompt ← gobbledygook_prompt;
   Ok (model_copy_prompt instance gobbledygook_prompt), g).
End transforms.
End Gobbledygook.

(** ** [ImageToken] of [token.py] *)

Module Token.
Section image_token.
(** [Bbox] and [View] are declared in [cogelot.structures.common]. *)
Context {A Bbox View : Type} `{!EqDecision View}.

Record VisualObject := mkVisualObject {
  bbox : Bbox;
  cropped_image : Tensor A;
  view : View;
}.

Record ImageToken := mkImageToken {
  index : nat;
  token : option (list char);
  objects : list VisualObject;
}.

Definition get_objects_for_view (self : ImageToken) (v : View)
    : list VisualObject :=
  filter (λ obj, view obj = v) (objects self).

Definition get_cropped_images_for_view (self : ImageToken) (v : View)
    : result (Tensor A) :=
  let objects_for_view := get_objects_for_view self v in
  let all_cropped_images := map cropped_image objects_for_view in
  stack all_cropped_images.

Definition __len__ (self : ImageToken) : nat := length (objects self).
End image_token.
End Token.

(** ** Notions of the specification *)

(** The "target shape" of a batch: the maximum extent of every axis, the
    axes being those of the first tensor. *)
Definition target_shape {A} (batch : list (Tensor A)) : list nat :=
  match batch with
  | [] => []
  | t0 :: _ =>
      map (λ k, max_list (map (λ t, nth k (shape t) 0) batch))
          (seq 0 (length (shape t0)))
  end.

(** [u] has shape [target], holds [t] on the region of [t]'s extents and
    [fill] at every other position. *)
Definition padded_to {A} (target : list nat) (fill : A) (t u : Tensor A) : Prop :=
  shape u = target ∧ wf u ∧
  ∀ idx, in_bounds target idx →
    tget u idx = if decide (in_bounds (shape t) idx) then tget t idx
                 else Some fill.

(** The words of [ws] with the special ones where they are and the other
    places filled, from left to right, with the words of [us]. *)
Fixpoint refill {T} (is_special : T → bool) (ws us : list T) : list T :=
  match ws with
  | [] => []
  | w :: ws' =>
      if is_special w then w :: refill is_special ws' us
      else match us with
           | u :: us' => u :: refill is_special ws' us'
           | [] => w :: refill is_special ws' []
           end
  end.

(** What [convert_language_prompt_to_gobbledygook] may put for a word: the
    word itself when it starts with the symbol, letters of the alphabet in
    the same number otherwise. *)
Definition gobbledygook_of (symbol : list char) (w w' : list char) : Prop :=
  if startswith w symbol then w' = w
  else length w' = length w ∧ Forall (λ c, c ∈ ALPHABET) w'.

(** ** The scenario of the specification: shapes (2,3), (4,1), (2,2) *)

Definition scenario_a : Tensor Z := mkTensor [2; 3] [1; 2; 3; 4; 5; 6]%Z.
Definition scenario_b : Tensor Z := mkTensor [4; 1] [7; 8; 9; 10]%Z.
Definition scenario_c : Tensor Z := mkTensor [2; 2] [11; 12; 13; 14]%Z.

(** The padded region the specification states for the result at index 0:
    rows 2-3 and column 2. *)
Definition stated_region_index0 (r : Tensor Z) : Prop :=
  ∀ i j, i < 4 → j < 3 → 2 ≤ i ∨ j = 2 → tget r [0; i; j] = Some (-100)%Z.

(** ** The scenario of the specification: steps of shapes (1,1,5), (1,1,7), (1,1,5) *)

Definition step5 : Tensor Z := mkTensor [1; 1; 5] [1; 2; 3; 4; 5]%Z.
Definition step7 : Tensor Z := mkTensor [1; 1; 7] [11; 12; 13; 14; 15; 16; 17]%Z.
Definition mask5 : Tensor bool := mkTensor [1; 1; 5] (replicate 5 true).
Definition mask7 : Tensor bool := mkTensor [1; 1; 7] (replicate 7 true).

(** A validation that accepts every action. *)
Definition accept_all (index : nat) (continuous_actions : unit) : result unit :=
  Ok tt.

Definition scenario_calls : list (@call unit unit Z) :=
  [AddNextEncodedObservation step5 mask5;
   AddNextEncodedObservation step7 mask7;
   AddNextEncodedObservation step5 mask5].

(** ** Concrete inputs for the composite collators, the parser and the
    transforms *)

(** A feature map with the tensor [t] for both views. *)
Definition scenario_views (t : Tensor Z) : gmap string (Tensor Z) :=
  <["front" := t]> (<["top" := t]> ∅).

(** An observation that holds the tensor [t] at every key. *)
Definition scenario_observation (t : Tensor Z) : @Collate.Observation Z :=
  Collate.mkObservation t
    (<["bbox" := scenario_views t]>
       (<["cropped_img" := scenario_views t]>
          (<["mask" := scenario_views t]> ∅)))
    (scenario_views t).

(** A validation that returns the index it was given. *)
Definition accept_index (index : nat) (continuous_actions : unit)
    : result nat :=
  Ok index.

(** An encoded observation that is a matrix once squeezed, after one that
    is a vector. *)
Definition step23 : Tensor Z := mkTensor [1; 1; 2; 3] [1; 2; 3; 4; 5; 6]%Z.

Definition mixed_rank_calls : list (@call unit unit Z) :=
  [AddNextEncodedObservation step5 mask5;
   AddNextEncodedObservation step23 mask5].

(** Three actions, with a reset after the first. *)
Definition action_calls : list (@call unit unit Z) :=
  [AddAction tt; CallReset; AddAction tt; AddAction tt].

(** The parser over a directory with the given actions and observations of
    a successful trajectory; the instance is the triple of what its
    constructor receives. *)
Definition scenario_parser (actions observations : list nat)
    : Parse.VIMAInstanceParser → unit → result (list nat * list nat * list bool) :=
  Parse.parse_from_instance_dir
    (λ _ : unit, Ok true) (λ _, Ok actions) (λ _, Ok observations) 0
    (λ metadata : bool, Ok metadata)
    (λ _ _ pose_actions observations success_per_step,
       Ok (pose_actions, observations, success_per_step)).

(** A [random.choices] that draws the letter A every time, and a
    [random.shuffle] that reverses the list. *)
Definition scenario_choices (g : unit) (population : list char) (k : nat)
    : list char * unit :=
  (replicate k 65%N, g).

Definition scenario_shuffle {T} (g : unit) (l : list T) : list T * unit :=
  (reverse l, g).

(** The prompt "put {a} in" and the symbol "{". *)
Definition scenario_prompt : list char :=
  [112; 117; 116; 32; 123; 97; 125; 32; 105; 110]%N.

Definition scenario_symbol : list char := [123%N].

(** * Properties *)

(** ** Blocks of a row-major list *)

Section tensor_facts.
Context {A : Type}.
Implicit Types (t : Tensor A) (s : list nat) (d : list A).

Lemma numel_cons n s : numel (n :: s) = n * numel s.
Proof. reflexivity. Qed.

Lemma chunk_concat (ls : list (list A)) m i c :
  Forall (λ l, length l = m) ls → ls !! i = Some c → chunk m i (concat ls) = c.
Proof.
  intros Hlen. revert i. induction Hlen as [|l ls Hl _ IH]; intros i Hi.
  - by rewrite lookup_nil in Hi.
  - destruct i as [|i]; simpl in *.
    + injection Hi as ->. unfold chunk. rewrite Nat.mul_0_l, drop_0. by rewrite take_app_length'.
    + unfold chunk in *. replace (S i * m) with (length l + i * m) by lia.
      rewrite drop_app_add. by apply IH.
Qed.

Lemma length_concat_const (m : nat) (ls : list (list A)) :
  Forall (λ l, length l = m) ls → length (concat ls) = length ls * m.
Proof.
  induction 1 as [|l ls Hl _ IH]; [done|]. simpl. rewrite length_app. lia.
Qed.

Lemma chunk_length d m i :
  (i + 1) * m ≤ length d → length (chunk m i d) = m.
Proof. intros H. unfold chunk. rewrite length_take, length_drop. lia. Qed.

Lemma chunks_lookup n m d i :
  i < n → chunks n m d !! i = Some (chunk m i d).
Proof.
  intros Hi. unfold chunks. rewrite list_lookup_fmap, lookup_seq_lt by done.
  reflexivity.
Qed.

Lemma chunks_length n m d : length (chunks n m d) = n.
Proof. unfold chunks. by rewrite length_map, length_seq. Qed.

Lemma chunks_Forall_length n m d :
  length d = n * m → Forall (λ c, length c = m) (chunks n m d).
Proof.
  intros Hd. apply Forall_forall. intros c Hc.
  apply list_elem_of_lookup in Hc as [i Hi].
  assert (i < n) as Hlt.
  { apply lookup_lt_Some in Hi. by rewrite chunks_length in Hi. }
  rewrite chunks_lookup in Hi by done. injection Hi as <-.
  apply chunk_length. nia.
Qed.

Lemma replicate_blocks (r m : nat) (x : A) :
  replicate (r * m) x = concat (replicate r (replicate m x)).
Proof.
  induction r as [|r IH]; [done|]. simpl. by rewrite replicate_add, IH.
Qed.

Lemma chunk_replicate n m i (x : A) :
  i < n → chunk m i (replicate (n * m) x) = replicate m x.
Proof.
  intros Hi. rewrite replicate_blocks. apply chunk_concat.
  - apply Forall_forall. intros l Hl. apply elem_of_replicate in Hl as [-> _].
    apply length_replicate.
  - by apply lookup_replicate_2.
Qed.

(** ** Element access *)

Lemma in_bounds_length s idx : in_bounds s idx → length idx = length s.
Proof. apply Forall2_length. Qed.

Lemma lookup_at_replicate s (x : A) idx :
  in_bounds s idx → lookup_at s (replicate (numel s) x) idx = Some x.
Proof.
  revert idx. induction s as [|n s IH]; intros idx Hb.
  - apply Forall2_nil_inv_r in Hb as ->. reflexivity.
  - apply Forall2_cons_inv_r in Hb as (i & idx' & Hi & Hb & ->). simpl.
    rewrite decide_True by done. rewrite chunk_replicate by done. by apply IH.
Qed.

Lemma lookup_at_is_Some s d idx :
  length d = numel s → in_bounds s idx → is_Some (lookup_at s d idx).
Proof.
  revert d idx. induction s as [|n s IH]; intros d idx Hd Hb.
  - apply Forall2_nil_inv_r in Hb as ->. simpl in *.
    destruct d; [done|]. eauto.
  - apply Forall2_cons_inv_r in Hb as (i & idx' & Hi & Hb & ->). simpl.
    rewrite decide_True by done. apply IH; [|done].
    apply chunk_length. rewrite Hd, numel_cons. nia.
Qed.

Lemma lookup_at_out_of_bounds s d idx :
  ¬ in_bounds s idx → lookup_at s d idx = None.
Proof.
  revert d idx. induction s as [|n s IH]; intros d [|i idx] Hb; simpl; try done.
  - destruct Hb. constructor.
  - case_decide; [|done]. apply IH. intros Hb'. apply Hb. by constructor.
Qed.

Lemma tget_select t i idx :
  tget t (i :: idx) =
  match select t i with Ok u => tget u idx | Raise _ => None end.
Proof.
  unfold tget, select. destruct (shape t) as [|n s]; [done|].
  simpl. by case_decide.
Qed.
Lemma chunk_0_all d m : length d = m → chunk m 0 d = d.
Proof.
  intros H. unfold chunk. rewrite Nat.mul_0_l, drop_0. apply take_ge. lia.
Qed.

Lemma in_bounds_1 (a i : nat) : in_bounds [a] [i] ↔ i < a.
Proof.
  unfold in_bounds. split.
  - intros H. by apply Forall2_cons_1 in H as [Hi _].
  - intros Hi. repeat constructor; done.
Qed.

Lemma tget_unsqueeze0 t idx :
  wf t → tget (unsqueeze0 t) (0 :: idx) = tget t idx.
Proof.
  intros Hwf. unfold tget, unsqueeze0. cbn [shape data lookup_at].
  rewrite decide_True by lia. by rewrite chunk_0_all.
Qed.

(** A stored step tensor of shape (1, 1, d), squeezed twice. *)
Lemma squeeze_step t (n : nat) :
  shape t = [1; 1; n] → squeeze0 (squeeze0 t) = mkTensor [n] (data t).
Proof.
  intros Hs. unfold squeeze0 at 2. rewrite Hs. unfold squeeze0. reflexivity.
Qed.

Lemma tget_step t (n j : nat) :
  wf t → shape t = [1; 1; n] →
  tget t [0; 0; j] = tget (mkTensor [n] (data t)) [j].
Proof.
  intros Hwf Hs. unfold wf in Hwf. unfold tget. rewrite Hs in *.
  cbn [shape data lookup_at]. rewrite !decide_True by lia.
  rewrite (chunk_0_all (data t)) by (rewrite Hwf; simpl; lia).
  rewrite (chunk_0_all (data t)) by (rewrite Hwf; simpl; lia).
  reflexivity.
Qed.
End tensor_facts.

(** ** Padding on the right *)

Section pad_facts.
Context {A : Type}.
Implicit Types (t : Tensor A) (s : list nat) (d : list A) (rs : list nat).

Lemma padded_shape_right_only s rs :
  padded_shape s (right_only rs) = zip_with Nat.add s rs.
Proof.
  revert rs. induction s as [|n s IH]; intros [|r rs]; simpl; try done.
  f_equal. apply IH.
Qed.

Lemma pad_data_length (fill : A) s rs d :
  length s = length rs → length d = numel s →
  length (pad_data fill s (right_only rs) d)
  = numel (padded_shape s (right_only rs)).
Proof.
  revert rs d. induction s as [|n s IH]; intros [|r rs] d Hlen Hd;
    simpl in *; try done.
  injection Hlen as Hlen.
  set (inner := numel (padded_shape s (right_only rs))).
  rewrite length_app, length_replicate.
  rewrite (length_concat_const inner).
  - rewrite length_map, chunks_length. lia.
  - apply Forall_forall. intros l Hl.
    apply list_elem_of_fmap in Hl as (c & -> & Hc).
    apply IH; [done|].
    eapply (proj1 (Forall_forall _ _) (chunks_Forall_length n (numel s) d Hd)).
    done.
Qed.

(** The padded contents hold the original element wherever the index is
    inside the original shape, and the fill value everywhere else. *)
Lemma pad_data_lookup (fill : A) s rs d idx :
  length s = length rs → length d = numel s →
  in_bounds (padded_shape s (right_only rs)) idx →
  lookup_at (padded_shape s (right_only rs))
            (pad_data fill s (right_only rs) d) idx
  = if decide (in_bounds s idx) then lookup_at s d idx else Some fill.
Proof.
  revert rs d idx. induction s as [|n s IH]; intros [|r rs] d idx Hlen Hd Hb;
    simpl in *; try done.
  { apply Forall2_nil_inv_r in Hb as ->. rewrite decide_True; [done|constructor]. }
  injection Hlen as Hlen.
  apply Forall2_cons_inv_r in Hb as (i & idx' & Hi & Hb & ->). simpl.
  rewrite decide_True by done.
  set (inner := numel (padded_shape s (right_only rs))).
  set (blocks := map (pad_data fill s (right_only rs)) (chunks n (numel s) d)).
  assert (Forall (λ l, length l = inner) blocks) as Hblocks.
  { apply Forall_forall. intros l Hl.
    apply list_elem_of_fmap in Hl as (c & -> & Hc).
    apply pad_data_length; [done|].
    eapply (proj1 (Forall_forall _ _) (chunks_Forall_length n (numel s) d Hd)).
    done. }
  rewrite replicate_blocks, <- concat_app.
  destruct (decide (i < n)) as [Hin|Hin].
  - erewrite chunk_concat; cycle 1.
    + apply Forall_app. split; [done|]. apply Forall_forall. intros l Hl.
      apply elem_of_replicate in Hl as [-> _]. apply length_replicate.
    + rewrite lookup_app_l by (unfold blocks; rewrite length_map, chunks_length; lia).
      unfold blocks. rewrite list_lookup_fmap, chunks_lookup by done. reflexivity.
    + rewrite IH; [|done| |done].
      * destruct (decide (in_bounds s idx')) as [Hs|Hs].
        -- rewrite decide_True; [done|]. by constructor.
        -- rewrite decide_False; [done|].
           intros Hc. apply Forall2_cons_1 in Hc as [_ Hc]. by apply Hs.
      * apply chunk_length. rewrite Hd. nia.
  - erewrite chunk_concat; cycle 1.
    + apply Forall_app. split; [done|]. apply Forall_forall. intros l Hl.
      apply elem_of_replicate in Hl as [-> _]. apply length_replicate.
    + rewrite lookup_app_r by (unfold blocks; rewrite length_map, chunks_length; lia).
      apply lookup_replicate_2.
      unfold blocks. rewrite length_map, chunks_length. lia.
    + rewrite decide_False.
      * by apply lookup_at_replicate.
      * intros Hc. apply Forall2_cons_1 in Hc as [Hc _]. lia.
Qed.

(** The flat list [(0, r_last, ..., 0, r_first)] is the [right_only]
    padding by [rs]. *)
Lemma pad_right_only t (rs : list Z) (value : A) :
  length rs = length (shape t) → Forall (λ r, 0 ≤ r)%Z rs →
  pad t (flat_map (λ r, [0%Z; r]) (reverse rs)) value
  = Ok (mkTensor (padded_shape (shape t) (right_only (map Z.to_nat rs)))
         (pad_data value (shape t) (right_only (map Z.to_nat rs)) (data t))).
Proof.
  intros Hlen Hpos. unfold pad.
  assert (∀ l : list Z, pad_pairs (flat_map (λ r, [0%Z; r]) l)
                      = Ok (map (λ r, (0%Z, r)) l)) as Hpairs.
  { induction l as [|x l IH]; [done|]. simpl. by rewrite IH. }
  rewrite Hpairs. cbn [mbind result_bind].
  rewrite length_map, length_reverse, Hlen, decide_True by done.
  rewrite decide_True; cycle 1.
  { apply Forall_fmap, Forall_reverse. eapply Forall_impl; [exact Hpos|].
    intros r Hr. cbn in *. lia. }
  rewrite Nat.sub_diag. simpl.
  rewrite map_map. simpl.
  change (map ?f ?l) with (f <$> l). rewrite fmap_reverse, reverse_involutive.
  unfold right_only. change (?f <$> ?l) with (map f l). by rewrite map_map.
Qed.
End pad_facts.

(** ** Stacking *)

Section stack_facts.
Context {A : Type}.
Implicit Types (t : Tensor A) (ts : list (Tensor A)).

Lemma stack_spec ts (target : list nat) :
  ts ≠ [] → Forall (λ t, shape t = target) ts → Forall wf ts →
  ∃ r, stack ts = Ok r
     ∧ shape r = length ts :: target
     ∧ data r = concat (map data ts)
     ∧ wf r
     ∧ ∀ i t idx, ts !! i = Some t → tget r (i :: idx) = tget t idx.
Proof.
  intros Hne Hshape Hwf. destruct ts as [|t0 ts']; [done|].
  set (ts := t0 :: ts') in *.
  assert (shape t0 = target) as H0 by (by inversion Hshape).
  assert (Forall (λ l, length l = numel target) (map data ts)) as Hblocks.
  { apply Forall_fmap. eapply Forall_impl.
    - apply Forall_and. split; [exact Hshape|exact Hwf].
    - intros t [Hs Hw]. simpl. unfold wf in Hw. by rewrite Hw, Hs. }
  exists (mkTensor (length ts :: target) (concat (map data ts))).
  split; [|split; [done|split; [done|split]]].
  - unfold stack, ts. rewrite decide_True; [by rewrite H0|].
    eapply Forall_impl; [exact Hshape|]. intros t Ht. simpl. congruence.
  - unfold wf. cbn [shape data].
    rewrite (length_concat_const (numel target)) by done.
    rewrite length_map. reflexivity.
  - intros i t idx Hi. unfold tget. cbn [shape data lookup_at].
    rewrite decide_True by (by apply lookup_lt_Some in Hi).
    erewrite chunk_concat; [| exact Hblocks | by rewrite list_lookup_fmap, Hi].
    assert (shape t = target) as ->; [|done].
    by apply (proj1 (Forall_forall _ _) Hshape), list_elem_of_lookup_2 with i.
Qed.
End stack_facts.

(** ** The shape arithmetic of the collator *)

Section shape_facts.
Implicit Types (r : list nat) (rs : list (list nat)).

Lemma zip_with_max_of_nat r0 r1 :
  zip_with Z.max (map Z.of_nat r0) (map Z.of_nat r1)
  = map Z.of_nat (zip_with Nat.max r0 r1).
Proof.
  revert r1. induction r0 as [|x r0 IH]; intros [|y r1]; simpl; try done.
  by rewrite IH, Nat2Z.inj_max.
Qed.

Lemma foldl_max_of_nat r0 rs :
  foldl (zip_with Z.max) (map Z.of_nat r0) (map (map Z.of_nat) rs)
  = map Z.of_nat (foldl (zip_with Nat.max) r0 rs).
Proof.
  revert r0. induction rs as [|r1 rs IH]; intros r0; simpl; [done|].
  by rewrite zip_with_max_of_nat, IH.
Qed.

Lemma foldl_max_length r0 rs :
  Forall (λ r, length r = length r0) rs →
  length (foldl (zip_with Nat.max) r0 rs) = length r0.
Proof.
  revert r0. induction rs as [|r1 rs IH]; intros r0 Hlen; simpl; [done|].
  apply Forall_cons in Hlen as [H1 Hlen].
  rewrite IH.
  - by apply length_zip_with_l_eq.
  - rewrite length_zip_with_l_eq by done. exact Hlen.
Qed.

Lemma foldl_max_lookup r0 rs k :
  Forall (λ r, length r = length r0) rs → k < length r0 →
  foldl (zip_with Nat.max) r0 rs !! k
  = Some (max_list (map (λ r, nth k r 0) (r0 :: rs))).
Proof.
  revert r0. induction rs as [|r1 rs IH]; intros r0 Hlen Hk.
  - simpl. destruct (lookup_lt_is_Some_2 r0 k Hk) as [x Hx].
    rewrite Hx, (nth_lookup_Some _ _ _ _ Hx). f_equal. lia.
  - apply Forall_cons in Hlen as [H1 Hlen]. simpl foldl.
    rewrite IH; cycle 1.
    + rewrite length_zip_with_l_eq by done. exact Hlen.
    + by rewrite length_zip_with_l_eq.
    + f_equal. simpl.
      destruct (lookup_lt_is_Some_2 r0 k Hk) as [x Hx].
      destruct (lookup_lt_is_Some_2 r1 k) as [y Hy]; [lia|].
      rewrite (nth_lookup_Some _ _ _ _ Hx), (nth_lookup_Some _ _ _ _ Hy).
      erewrite nth_lookup_Some; [|by rewrite lookup_zip_with, Hx; simpl; rewrite Hy].
      lia.
Qed.

Lemma zip_with_sub_of_nat (target r : list nat) :
  Forall2 le r target →
  zip_with Z.sub (map Z.of_nat target) (map Z.of_nat r)
  = map Z.of_nat (zip_with Nat.sub target r).
Proof.
  induction 1 as [|x y r target Hxy _ IH]; simpl; [done|].
  rewrite IH. f_equal. lia.
Qed.

Lemma zip_with_add_sub (target r : list nat) :
  Forall2 le r target → zip_with Nat.add r (zip_with Nat.sub target r) = target.
Proof.
  induction 1 as [|x y r target Hxy _ IH]; simpl; [done|].
  rewrite IH. f_equal. lia.
Qed.

Lemma all_zero_deficit (target r : list nat) :
  Forall2 le r target →
  all_zero (map Z.of_nat (zip_with Nat.sub target r)) = true → r = target.
Proof.
  induction 1 as [|x y r target Hxy _ IH]; simpl; [done|].
  intros [H1 H2]%andb_true_iff. apply Z.eqb_eq in H1.
  rewrite IH by done. f_equal. lia.
Qed.

Lemma all_zero_matrix_spec (m : list (list Z)) :
  all_zero_matrix m = true ↔ Forall (λ row, all_zero row = true) m.
Proof.
  unfold all_zero_matrix. rewrite forallb_forall, Forall_forall.
  split; intros H x Hx; apply H; by apply list_elem_of_In.
Qed.

(** The flat padding list built with [stack], [rot90], [fliplr] and
    [flatten] is [(0, k_last, ..., 0, k_first)]. *)
Lemma padding_of_spec (row : list Z) :
  padding_of row = flat_map (λ k, [0%Z; k]) (reverse row).
Proof.
  unfold padding_of, flatten, fliplr, rot90, flip1, transpose, zeros_like.
  cbn [map]. rewrite reverse_replicate, flat_map_concat_map, map_map.
  f_equal. rewrite length_reverse, <- (length_reverse row).
  generalize (reverse row). intros l. apply list_eq. intros i.
  rewrite !list_lookup_fmap.
  destruct (decide (i < length l)) as [Hi|Hi].
  - rewrite lookup_seq_lt by done.
    destruct (lookup_lt_is_Some_2 l i Hi) as [x Hx]. rewrite Hx. simpl.
    rewrite (nth_lookup_Some _ _ _ _ Hx), nth_lookup.
    rewrite lookup_replicate_2 by done. reflexivity.
  - rewrite lookup_seq_ge by lia. rewrite lookup_ge_None_2 by lia. reflexivity.
Qed.
End shape_facts.

(** ** The collator *)

Section collate_facts.
Context {A : Type} `{!Dtype A}.
Implicit Types (t u : Tensor A) (batch : list (Tensor A)).

Lemma target_shape_foldl t0 rest :
  Forall (λ t, length (shape t) = length (shape t0)) rest →
  target_shape (t0 :: rest)
  = foldl (zip_with Nat.max) (shape t0) (map shape rest).
Proof.
  intros Hrank.
  assert (Forall (λ r, length r = length (shape t0)) (map shape rest)) as Hlen.
  { by apply Forall_fmap. }
  unfold target_shape. apply list_eq. intros k.
  destruct (decide (k < length (shape t0))) as [Hk|Hk].
  - rewrite foldl_max_lookup by done.
    rewrite list_lookup_fmap, lookup_seq_lt by done. simpl.
    by rewrite map_map.
  - rewrite list_lookup_fmap, lookup_seq_ge by lia.
    rewrite lookup_ge_None_2; [done|]. rewrite foldl_max_length by done. lia.
Qed.

Lemma target_shape_length batch rank :
  batch ≠ [] → Forall (λ t, length (shape t) = rank) batch →
  length (target_shape batch) = rank.
Proof.
  intros Hne Hrank. destruct batch as [|t0 rest]; [done|].
  apply Forall_cons in Hrank as [H0 _].
  unfold target_shape. by rewrite length_map, length_seq.
Qed.

Lemma target_shape_ge batch rank t :
  Forall (λ t, length (shape t) = rank) batch → t ∈ batch →
  Forall2 le (shape t) (target_shape batch).
Proof.
  intros Hrank Ht.
  assert (batch ≠ []) as Hne by (intros ->; by apply elem_of_nil in Ht).
  assert (length (shape t) = rank) as Hlen.
  { by apply (proj1 (Forall_forall _ _) Hrank). }
  apply Forall2_same_length_lookup_2.
  { by rewrite (target_shape_length batch rank). }
  intros k x y Hx Hy. destruct batch as [|t0 rest]; [done|].
  unfold target_shape in Hy. rewrite list_lookup_fmap in Hy.
  destruct (seq 0 (length (shape t0)) !! k) as [k'|] eqn:Hk; [|done].
  apply lookup_seq in Hk as [-> _]. injection Hy as <-.
  apply (max_list_elem_of_le x (map (λ t, nth k (shape t) 0) (t0 :: rest))).
  apply list_elem_of_fmap.
  exists t. split; [|done]. by rewrite (nth_lookup_Some _ _ _ _ Hx).
Qed.

Lemma max_dim0_target batch rank :
  batch ≠ [] → Forall (λ t, length (shape t) = rank) batch →
  max_dim0 (map (λ i, map Z.of_nat (shape i)) batch)
  = Ok (map Z.of_nat (target_shape batch)).
Proof.
  intros Hne Hrank. destruct batch as [|t0 rest]; [done|].
  apply Forall_cons in Hrank as [H0 Hrank].
  rewrite target_shape_foldl.
  - simpl. rewrite <- foldl_max_of_nat. by rewrite map_map.
  - eapply Forall_impl; [exact Hrank|]. intros t Ht. simpl in *. congruence.
Qed.

Lemma tensor_of_rows_shapes batch rank :
  Forall (λ t, length (shape t) = rank) batch →
  tensor_of_rows (map (λ i, map Z.of_nat (shape i)) batch)
  = Ok (map (λ i, map Z.of_nat (shape i)) batch).
Proof.
  intros Hrank. destruct batch as [|t0 rest]; [done|].
  unfold tensor_of_rows. cbn [map]. rewrite decide_True; [done|].
  pose proof Hrank as [H0 _]%Forall_cons.
  change (map Z.of_nat (shape t0) :: map (λ i, map Z.of_nat (shape i)) rest)
    with (map (λ i, map Z.of_nat (shape i)) (t0 :: rest)).
  apply Forall_fmap. eapply Forall_impl; [exact Hrank|].
  intros t Ht. simpl in *. rewrite !length_map. congruence.
Qed.

(** The deficits the collator computes are never negative. *)
Lemma padding_needed_nonneg (target : list nat) t :
  Forall2 le (shape t) target →
  Forall (λ z, 0 ≤ z)%Z
    (zip_with Z.sub (map Z.of_nat target) (map Z.of_nat (shape t))).
Proof.
  intros Hle. rewrite zip_with_sub_of_nat by done.
  apply Forall_fmap, Forall_true. intros n. simpl. lia.
Qed.

(** One iteration of the loop: the tensor is brought to the target shape
    and appended. *)
Lemma loop_body_spec (p : Z) (target : list nat) t :
  wf t → Forall2 le (shape t) target →
  ∃ u, padded_to target (cast p) t u
     ∧ ∀ padded_tensors,
         loop_body p t (zip_with Z.sub (map Z.of_nat target)
                                       (map Z.of_nat (shape t))) padded_tensors
         = Ok (padded_tensors ++ [u]).
Proof.
  intros Hwf Hle. pose proof (padding_needed_nonneg target t Hle) as Hpos.
  rewrite zip_with_sub_of_nat in * by done. unfold loop_body.
  pose proof (Forall2_length _ _ _ Hle) as Hlen.
  destruct (all_zero _) eqn:Hz.
  - apply all_zero_deficit in Hz; [|done]. exists t. split; [|done].
    split; [done|split; [done|]]. intros idx Hidx.
    rewrite decide_True; [done|]. by rewrite Hz.
  - cbv zeta. rewrite padding_of_spec, pad_right_only; cycle 1.
    { rewrite length_map, length_zip_with_r_eq by done. done. }
    { done. }
    assert (map Z.to_nat (map Z.of_nat (zip_with Nat.sub target (shape t)))
            = zip_with Nat.sub target (shape t)) as ->.
    { rewrite map_map. rewrite <- (map_id (zip_with _ _ _)) at 2.
      apply map_ext. intros. apply Nat2Z.id. }
    set (rs := zip_with Nat.sub target (shape t)).
    assert (length (shape t) = length rs) as Hrs.
    { unfold rs. by rewrite length_zip_with_r_eq. }
    assert (padded_shape (shape t) (right_only rs) = target) as Hshape.
    { rewrite padded_shape_right_only. by apply zip_with_add_sub. }
    eexists. split; [|reflexivity]. split; [done|split].
    + unfold wf. cbn [shape data]. by apply pad_data_length.
    + intros idx Hidx. unfold tget. cbn [shape data].
      rewrite <- Hshape in Hidx. by apply pad_data_lookup.
Qed.

(** The whole loop, when every iteration appends one element. *)
Lemma for_zip_strict_append {X Y V} (body : X → Y → list V → result (list V))
    (g : X → Y) (R : X → V → Prop) (xs : list X) (acc : list V) :
  Forall (λ x, ∃ v, R x v ∧ ∀ acc, body x (g x) acc = Ok (acc ++ [v])) xs →
  ∃ vs, for_zip_strict xs (map g xs) body acc = Ok (acc ++ vs)
      ∧ Forall2 R xs vs.
Proof.
  intros Hall. revert acc.
  induction Hall as [|x xs (v & HR & Hbody) _ IH]; intros acc.
  - exists []. split; [by rewrite app_nil_r|constructor].
  - destruct (IH (acc ++ [v])) as (vs & Hvs & HRs).
    exists (v :: vs). split; [|by constructor].
    cbn [map for_zip_strict]. rewrite Hbody. cbn [mbind result_bind].
    by rewrite Hvs, <- app_assoc.
Qed.

(** Stacking tensors that were brought to a common shape. *)
Lemma stack_padded batch (ts : list (Tensor A)) target fill :
  batch ≠ [] → Forall2 (padded_to target fill) batch ts →
  ∃ r, stack ts = Ok r
     ∧ shape r = length batch :: target
     ∧ wf r
     ∧ ∀ i t idx, batch !! i = Some t → in_bounds target idx →
         tget r (i :: idx)
         = if decide (in_bounds (shape t) idx) then tget t idx else Some fill.
Proof.
  intros Hne Hpad.
  pose proof (Forall2_length _ _ _ Hpad) as Hlen.
  destruct (stack_spec ts target) as (r & Hr & Hshape & _ & Hwf & Hget).
  - intros ->. destruct batch; done.
  - apply Forall_forall. intros u Hu.
    apply list_elem_of_lookup in Hu as [i Hi].
    destruct (Forall2_lookup_r _ _ _ _ _ Hpad Hi) as (t & _ & Hs & _). done.
  - apply Forall_forall. intros u Hu.
    apply list_elem_of_lookup in Hu as [i Hi].
    destruct (Forall2_lookup_r _ _ _ _ _ Hpad Hi) as (t & _ & _ & Hw & _). done.
  - exists r. split; [done|]. split; [by rewrite Hshape, Hlen|]. split; [done|].
    intros i t idx Hi Hidx.
    destruct (Forall2_lookup_l _ _ _ _ _ Hpad Hi) as (u & Hu & _ & _ & Hlook).
    rewrite (Hget i u idx Hu). by apply Hlook.
Qed.

(** The collator returns the stack of the tensors brought to the target
    shape, on the fast path and on the padding path alike. *)
Lemma collate_as_stack batch (p : Z) rank :
  batch ≠ [] → Forall wf batch →
  Forall (λ t, length (shape t) = rank) batch →
  ∃ ts, collate_variable_ndim_batch batch p = stack ts
      ∧ Forall2 (padded_to (target_shape batch) (cast p)) batch ts.
Proof.
  intros Hne Hwf Hrank. unfold collate_variable_ndim_batch.
  assert (∃ t0, py_getitem batch 0 = Ok t0) as [t0 ->].
  { destruct batch as [|t0 rest]; [done|]. by exists t0. }
  cbn [mbind result_bind].
  rewrite (tensor_of_rows_shapes batch rank) by done. cbn [mbind result_bind].
  rewrite (max_dim0_target batch rank) by done. cbn [mbind result_bind].
  set (target := target_shape batch).
  assert (Forall (λ t, ∃ u, padded_to target (cast p) t u
            ∧ ∀ acc, loop_body p t (zip_with Z.sub (map Z.of_nat target)
                                      (map Z.of_nat (shape t))) acc
                     = Ok (acc ++ [u])) batch) as Hone.
  { apply Forall_forall. intros t Ht. apply loop_body_spec.
    - by apply (proj1 (Forall_forall _ _) Hwf).
    - by apply (target_shape_ge batch rank). }
  unfold broadcast_sub. rewrite map_map.
  destruct (all_zero_matrix _) eqn:Hz.
  - exists batch. split; [done|].
    apply all_zero_matrix_spec in Hz. apply Forall_fmap in Hz.
    apply Forall2_same_length_lookup_2; [done|].
    intros i t t' Ht Ht'. assert (t' = t) as -> by congruence.
    assert (t ∈ batch) as Hin by (by eapply list_elem_of_lookup_2).
    pose proof (proj1 (Forall_forall _ _) Hz t Hin) as Hzt. simpl in Hzt.
    pose proof (proj1 (Forall_forall _ _) Hone t Hin) as (u & Hpad & Hu).
    specialize (Hu []). unfold loop_body in Hu. rewrite Hzt in Hu.
    by injection Hu as <-.
  - destruct (for_zip_strict_append (loop_body p)
                (λ t, zip_with Z.sub (map Z.of_nat target)
                        (map Z.of_nat (shape t)))
                (padded_to target (cast p)) batch [] Hone)
      as (ts & Hts & Hall).
    rewrite Hts. cbn [mbind result_bind app]. by exists ts.
Qed.
End collate_facts.

Section collate_theorems.
Context {A : Type} `{!Dtype A}.
Implicit Types (t u : Tensor A) (batch : list (Tensor A)).

Lemma in_bounds_2 (a b i j : nat) : in_bounds [a; b] [i; j] ↔ i < a ∧ j < b.
Proof.
  unfold in_bounds. split.
  - intros H. apply Forall2_cons_1 in H as [Hi H].
    apply Forall2_cons_1 in H as [Hj _]. done.
  - intros [Hi Hj]. repeat constructor; done.
Qed.

(** The general statement behind the claims on padding. *)
Lemma collate_spec batch (p : Z) rank :
  batch ≠ [] → Forall wf batch →
  Forall (λ t, length (shape t) = rank) batch →
  ∃ r, collate_variable_ndim_batch batch p = Ok r
     ∧ shape r = length batch :: target_shape batch
     ∧ wf r
     ∧ ∀ i t idx, batch !! i = Some t → in_bounds (target_shape batch) idx →
         tget r (i :: idx)
         = if decide (in_bounds (shape t) idx) then tget t idx
           else Some (cast p).
Proof.
  intros Hne Hwf Hrank.
  destruct (collate_as_stack batch p rank) as (ts & -> & Hpad); try done.
  by apply stack_padded.
Qed.

(** The fast path: tensors of one shape are stacked as they are. *)
Lemma collate_fast_path batch (p : Z) (s : list nat) :
  batch ≠ [] → Forall (λ t, shape t = s) batch →
  collate_variable_ndim_batch batch p = stack batch
  ∧ stack batch = Ok (mkTensor (length batch :: s) (concat (map data batch))).
Proof.
  intros Hne Hs. destruct batch as [|t0 rest]; [done|].
  pose proof Hs as [H0 Hrest]%Forall_cons.
  split.
  - unfold collate_variable_ndim_batch.
    change (py_getitem (t0 :: rest) 0) with (Ok t0). cbn [mbind result_bind].
    rewrite (tensor_of_rows_shapes _ (length s)); cycle 1.
    { eapply Forall_impl; [exact Hs|]. intros t ->. done. }
    cbn [mbind result_bind].
    set (row := map Z.of_nat s).
    assert (map (λ i, map Z.of_nat (shape i)) (t0 :: rest)
            = replicate (length (t0 :: rest)) row) as ->.
    { clear Hne H0 Hrest. induction Hs as [|t l Ht _ IH]; [done|].
      simpl. rewrite IH. by rewrite Ht. }
    assert (∀ n, foldl (zip_with Z.max) row (replicate n row) = row) as Hmax.
    { assert (zip_with Z.max row row = row) as Hrow.
      { generalize row. induction row0 as [|x l IH]; [done|].
        simpl. by rewrite IH, Z.max_id. }
      induction n as [|n IH]; [done|]. simpl. by rewrite Hrow. }
    cbn [length replicate max_dim0]. rewrite Hmax. cbn [mbind result_bind].
    assert (all_zero_matrix
              (broadcast_sub row (row :: replicate (length rest) row)) = true)
      as ->; [|done].
    apply all_zero_matrix_spec. unfold broadcast_sub. apply Forall_fmap.
    assert (all_zero (zip_with Z.sub row row) = true) as Hrow.
    { generalize row. induction row0 as [|x l IH]; [done|].
      simpl. rewrite IH, Z.sub_diag. done. }
    constructor; [done|]. apply Forall_forall.
    intros r [-> _]%elem_of_replicate. done.
  - unfold stack. rewrite decide_True; [by rewrite H0|].
    eapply Forall_impl; [exact Hs|]. intros t Ht. simpl. congruence.
Qed.

(** C1 (as amended).  For every non-empty batch of tensors of one rank and
    every padding value [p], the collator returns a tensor of shape
    [len(batch)] followed by the maximum extent of every axis; its slice at
    position [i] holds [batch[i]] on the region of [batch[i]]'s extents
    (the low indices of every axis, the order along axis 0 kept) and the
    padding value at every other position.  For shapes (2,3), (4,1), (2,2)
    the result has shape (3,4,3); at index 0 the padding is rows 2-3, at
    index 1 columns 1-2, at index 2 rows 2-3 and column 2. *)
Theorem collate_padding_correct batch (p : Z) rank :
  batch ≠ [] → Forall wf batch →
  Forall (λ t, length (shape t) = rank) batch →
  ∃ r, collate_variable_ndim_batch batch p = Ok r
     ∧ shape r = length batch :: target_shape batch
     ∧ wf r
     ∧ (∀ i t idx, batch !! i = Some t → in_bounds (target_shape batch) idx →
          is_Some (tget r (i :: idx))
          ∧ tget r (i :: idx)
            = if decide (in_bounds (shape t) idx) then tget t idx
              else Some (cast p))
     ∧ (∀ t1 t2 t3, batch = [t1; t2; t3] →
          shape t1 = [2; 3] → shape t2 = [4; 1] → shape t3 = [2; 2] →
          shape r = [3; 4; 3]
          ∧ ∀ i j, i < 4 → j < 3 →
              tget r [0; i; j]
              = (if decide (i < 2) then tget t1 [i; j] else Some (cast p))
            ∧ tget r [1; i; j]
              = (if decide (j < 1) then tget t2 [i; j] else Some (cast p))
            ∧ tget r [2; i; j]
              = (if decide (i < 2 ∧ j < 2) then tget t3 [i; j]
                 else Some (cast p))).
Proof.
  intros Hne Hwf Hrank.
  destruct (collate_spec batch p rank) as (r & Hr & Hshape & Hwfr & Hget);
    try done.
  exists r. split; [done|]. split; [done|]. split; [done|]. split.
  - intros i t idx Hi Hidx. rewrite (Hget i t idx Hi Hidx). split; [|done].
    destruct (decide (in_bounds (shape t) idx)) as [Hin|Hin]; [|by eexists].
    apply lookup_at_is_Some; [|done].
    apply (proj1 (Forall_forall _ _) Hwf). by eapply list_elem_of_lookup_2.
  - intros t1 t2 t3 -> H1 H2 H3.
    assert (target_shape [t1; t2; t3] = [4; 3]) as Htarget.
    { unfold target_shape. rewrite H1. cbn [length seq map]. by rewrite H1, H2, H3. }
    rewrite Htarget in Hshape, Hget. split; [done|].
    intros i j Hi Hj.
    assert (in_bounds [4; 3] [i; j]) as Hb by (by apply in_bounds_2).
    rewrite (Hget 0 t1 [i; j] eq_refl Hb), (Hget 1 t2 [i; j] eq_refl Hb),
      (Hget 2 t3 [i; j] eq_refl Hb), H1, H2, H3.
    repeat split; repeat case_decide; try done;
      rewrite ?in_bounds_2 in *; exfalso; lia.
Qed.

(** C5.  When all tensors of a non-empty batch have the same shape, the
    collator returns exactly [torch.stack(batch)]: the tensor of shape
    [len(batch)] followed by the common shape whose contents are those of
    the inputs one after the other.  No padding value enters the result: it
    is the same for every padding value. *)
Theorem collate_same_shape_is_stack batch (p : Z) (s : list nat) :
  batch ≠ [] → Forall (λ t, shape t = s) batch →
  collate_variable_ndim_batch batch p = stack batch
  ∧ stack batch = Ok (mkTensor (length batch :: s) (concat (map data batch)))
  ∧ ∀ p', collate_variable_ndim_batch batch p'
          = collate_variable_ndim_batch batch p.
Proof.
  intros Hne Hs.
  destruct (collate_fast_path batch p s Hne Hs) as [Hp Hstack].
  split; [done|]. split; [done|]. intros p'.
  destruct (collate_fast_path batch p' s Hne Hs) as [Hp' _]. congruence.
Qed.
End collate_theorems.

(** The scenario on concrete tensors, as an instance of C1. *)
Lemma collate_padding_correct_witness :
  ∃ r, collate_variable_ndim_batch [scenario_a; scenario_b; scenario_c] (-100)
       = Ok r
     ∧ shape r = [3; 4; 3].
Proof.
  destruct (collate_padding_correct [scenario_a; scenario_b; scenario_c]
              (-100) 2) as (r & Hr & _ & _ & _ & Hscenario).
  - done.
  - repeat constructor.
  - repeat constructor.
  - exists r. split; [done|].
    by destruct (Hscenario _ _ _ eq_refl eq_refl eq_refl eq_refl) as [Hs _].
Defined.

(** C1 as the specification states it fails at index 0: column 2 of the
    first tensor is not padding, it holds the tensor's own elements. *)
Lemma collate_scenario_column2_counterexample :
  ∃ r, collate_variable_ndim_batch [scenario_a; scenario_b; scenario_c] (-100)
       = Ok r
     ∧ tget r [0; 0; 2] = Some 3%Z
     ∧ ¬ stated_region_index0 r.
Proof.
  eexists. split; [vm_compute; reflexivity|]. split; [reflexivity|].
  intros H. specialize (H 0 2). discriminate H; [lia|lia|by right].
Qed.

Lemma collate_same_shape_is_stack_witness :
  collate_variable_ndim_batch [scenario_a; scenario_a] 7
  = Ok (mkTensor [2; 2; 3] [1; 2; 3; 4; 5; 6; 1; 2; 3; 4; 5; 6]%Z).
Proof.
  destruct (collate_same_shape_is_stack [scenario_a; scenario_a] 7 [2; 3])
    as (-> & -> & _).
  - done.
  - repeat constructor.
  - reflexivity.
Defined.

(** ** The replay buffer *)

Section replay_buffer_facts.
Context {Observation ContinuousActions PoseAction E : Type} `{!Dtype E}.
Variable model_validate : nat → ContinuousActions → result PoseAction.

Local Abbreviation Buffer := (@ReplayBuffer Observation PoseAction E).
Local Abbreviation call := (@call Observation ContinuousActions E).
Local Abbreviation after_call := (after model_validate).
Local Abbreviation run_calls := (run model_validate).
Implicit Types (b self : Buffer) (c : call) (calls : list call).

(** Splits a goal about [after c b] into the cases of the call. *)
Local Ltac call_cases c b :=
  destruct c; unfold after, step, add_action, set_encoded_prompt,
    set_encoded_prompt_mask; cbn;
  try destruct (model_validate _ _) eqn:?;
  try destruct (_encoded_prompt b) eqn:?;
  try destruct (_encoded_prompt_mask b) eqn:?; cbn; try done; try congruence.

Lemma reset_init b : reset b = __init__.
Proof. reflexivity. Qed.

Lemma run_cons c calls b : run_calls (c :: calls) b = run_calls calls (after_call c b).
Proof. reflexivity. Qed.

(** An attribute that every call updates by [f] is the fold of [f] over
    the calls. *)
Lemma run_tracks {X} (proj : Buffer → X) (f : X → call → X) calls b :
  (∀ b c, proj (after_call c b) = f (proj b) c) →
  proj (run_calls calls b) = foldl f (proj b) calls.
Proof.
  intros Hstep. revert b. induction calls as [|c calls IH]; intros b; [done|].
  rewrite run_cons, IH, Hstep. reflexivity.
Qed.

Lemma run_encoded_observations calls :
  _encoded_observations (run_calls calls __init__) = recorded_observations calls.
Proof.
  unfold recorded_observations.
  rewrite (run_tracks _encoded_observations
    (λ acc c, match c with
              | CallReset => []
              | AddNextEncodedObservation t _ => acc ++ [t]
              | _ => acc
              end)); [done|].
  intros b c. call_cases c b.
Qed.

Lemma run_encoded_observation_masks calls :
  _encoded_observation_masks (run_calls calls __init__)
  = recorded_observation_masks calls.
Proof.
  unfold recorded_observation_masks.
  rewrite (run_tracks _encoded_observation_masks
    (λ acc c, match c with
              | CallReset => []
              | AddNextEncodedObservation _ m => acc ++ [m]
              | _ => acc
              end)); [done|].
  intros b c. call_cases c b.
Qed.

Lemma run_encoded_actions calls :
  _encoded_actions (run_calls calls __init__) = recorded_actions calls.
Proof.
  unfold recorded_actions.
  rewrite (run_tracks _encoded_actions
    (λ acc c, match c with
              | CallReset => []
              | AddNextEncodedAction t _ => acc ++ [t]
              | _ => acc
              end)); [done|].
  intros b c. call_cases c b.
Qed.

Lemma run_encoded_action_masks calls :
  _encoded_action_masks (run_calls calls __init__) = recorded_action_masks calls.
Proof.
  unfold recorded_action_masks.
  rewrite (run_tracks _encoded_action_masks
    (λ acc c, match c with
              | CallReset => []
              | AddNextEncodedAction _ m => acc ++ [m]
              | _ => acc
              end)); [done|].
  intros b c. call_cases c b.
Qed.

Lemma recorded_action_masks_length calls :
  length (recorded_action_masks calls) = length (recorded_actions calls).
Proof.
  unfold recorded_action_masks, recorded_actions.
  assert (∀ (acc1 : list (Tensor bool)) (acc2 : list (Tensor E)),
    length acc1 = length acc2 →
    length (foldl (λ acc c,
              match c with
              | CallReset => []
              | AddNextEncodedAction _ m => acc ++ [m]
              | _ => acc
              end) acc1 calls)
    = length (foldl (λ acc c,
                match c with
                | CallReset => []
                | AddNextEncodedAction t _ => acc ++ [t]
                | _ => acc
                end) acc2 calls)) as Hgen; [|by apply Hgen].
  induction calls as [|c calls IH]; intros acc1 acc2 Hacc; [done|].
  cbn [foldl]. apply IH. destruct c; try done.
  rewrite !length_app. simpl. lia.
Qed.

Lemma recorded_observation_masks_length calls :
  length (recorded_observation_masks calls)
  = length (recorded_observations calls).
Proof.
  unfold recorded_observation_masks, recorded_observations.
  assert (∀ (acc1 : list (Tensor bool)) (acc2 : list (Tensor E)),
    length acc1 = length acc2 →
    length (foldl (λ acc c,
              match c with
              | CallReset => []
              | AddNextEncodedObservation _ m => acc ++ [m]
              | _ => acc
              end) acc1 calls)
    = length (foldl (λ acc c,
                match c with
                | CallReset => []
                | AddNextEncodedObservation t _ => acc ++ [t]
                | _ => acc
                end) acc2 calls)) as Hgen; [|by apply Hgen].
  induction calls as [|c calls IH]; intros acc1 acc2 Hacc; [done|].
  cbn [foldl]. apply IH. destruct c; try done.
  rewrite !length_app. simpl. lia.
Qed.

Lemma run_success_per_step calls :
  _success_per_step (run_calls calls __init__) = recorded_flags calls.
Proof.
  unfold recorded_flags.
  rewrite (run_tracks _success_per_step
    (λ acc c, match c with
              | CallReset => []
              | UpdateSuccessTracker f => acc ++ [f]
              | _ => acc
              end)); [done|].
  intros b c. call_cases c b.
Qed.

Lemma run_len calls b :
  __len__ (run_calls calls b) = encoded_actions_since_reset (__len__ b) calls.
Proof.
  unfold encoded_actions_since_reset.
  rewrite (run_tracks __len__
    (λ k c, match c with
            | CallReset => 0
            | AddNextEncodedAction _ _ => S k
            | _ => k
            end)); [done|].
  intros b' c. call_cases c b'.
  all: unfold __len__, num_actions; cbn; rewrite length_app; simpl; lia.
Qed.

Lemma prompt_preserved c b :
  is_reset c = false → _encoded_prompt b ≠ [] →
  _encoded_prompt (after_call c b) = _encoded_prompt b.
Proof. intros Hc Hb. call_cases c b. Qed.

Lemma prompt_mask_preserved c b :
  is_reset c = false → _encoded_prompt_mask b ≠ [] →
  _encoded_prompt_mask (after_call c b) = _encoded_prompt_mask b.
Proof. intros Hc Hb. call_cases c b. Qed.

Lemma run_prompt_preserved calls b :
  Forall (λ c, is_reset c = false) calls → _encoded_prompt b ≠ [] →
  _encoded_prompt (run_calls calls b) = _encoded_prompt b.
Proof.
  intros Hcalls. revert b. induction Hcalls as [|c calls Hc _ IH]; intros b Hb.
  - reflexivity.
  - rewrite run_cons, IH; rewrite prompt_preserved; done.
Qed.

Lemma run_prompt_mask_preserved calls b :
  Forall (λ c, is_reset c = false) calls → _encoded_prompt_mask b ≠ [] →
  _encoded_prompt_mask (run_calls calls b) = _encoded_prompt_mask b.
Proof.
  intros Hcalls. revert b. induction Hcalls as [|c calls Hc _ IH]; intros b Hb.
  - reflexivity.
  - rewrite run_cons, IH; rewrite prompt_mask_preserved; done.
Qed.
(** The derived view of a non-empty list of step tensors of shapes
    (1, 1, d_i). *)
Lemma collate_steps_spec {T} `{!Dtype T} (tensors : list (Tensor T)) :
  tensors ≠ [] →
  Forall (λ t, wf t ∧ ∃ n, shape t = [1; 1; n]) tensors →
  ∃ r0, collate_variable_ndim_batch
          (map (λ tensor, squeeze0 (squeeze0 tensor)) tensors)
          padding_value_default = Ok r0
      ∧ shape (unsqueeze0 r0)
        = [1; length tensors; max_list (map feature_dim tensors)]
      ∧ ∀ i t j, tensors !! i = Some t →
          j < max_list (map feature_dim tensors) →
          tget (unsqueeze0 r0) [0; i; j]
          = if decide (j < feature_dim t) then tget t [0; 0; j]
            else Some (cast 0).
Proof.
  intros Hne Hall.
  assert (map (λ tensor, squeeze0 (squeeze0 tensor)) tensors
          = map (λ t, mkTensor [feature_dim t] (data t)) tensors) as ->.
  { apply Forall_fmap_ext. eapply Forall_impl; [exact Hall|].
    intros t (_ & n & Hs). cbn beta. rewrite (squeeze_step t n Hs).
    unfold feature_dim. by rewrite Hs. }
  set (squeezed := map (λ t, mkTensor [feature_dim t] (data t)) tensors).
  assert (target_shape squeezed = [max_list (map feature_dim tensors)])
    as Htarget.
  { unfold squeezed. destruct tensors as [|t0 rest]; [done|].
    unfold target_shape. cbn [map shape length seq]. by rewrite map_map. }
  destruct (collate_spec squeezed padding_value_default 1)
    as (r0 & Hr0 & Hshape & Hwf & Hget).
  - unfold squeezed. by destruct tensors.
  - unfold squeezed. apply Forall_fmap. eapply Forall_impl; [exact Hall|].
    intros t (Hwf & n & Hs). unfold wf in *. cbn [shape data compose].
    rewrite Hwf, Hs. unfold feature_dim. rewrite Hs. simpl. lia.
  - unfold squeezed. apply Forall_fmap. by apply Forall_true.
  - exists r0. split; [done|]. split.
    + unfold unsqueeze0. cbn [shape]. rewrite Hshape, Htarget.
      unfold squeezed. by rewrite length_map.
    + intros i t j Hi Hj.
      rewrite tget_unsqueeze0 by done.
      rewrite (Hget i (mkTensor [feature_dim t] (data t)) [j]); cycle 1.
      { unfold squeezed. by rewrite list_lookup_fmap, Hi. }
      { rewrite Htarget. by apply in_bounds_1. }
      cbn [shape].
      pose proof (proj1 (Forall_forall _ _) Hall t
                    (list_elem_of_lookup_2 _ _ _ Hi)) as (Hwft & n & Hs).
      assert (feature_dim t = n) as Hn by (unfold feature_dim; by rewrite Hs).
      destruct (decide (j < feature_dim t)) as [Hlt|Hlt].
      * rewrite decide_True by (by apply in_bounds_1).
        rewrite Hn. symmetry. by apply tget_step.
      * rewrite decide_False by (by rewrite in_bounds_1). reflexivity.
Qed.

(** C2.  After a sequence of calls in which, since the last reset,
    [add_next_encoded_observation] received n >= 1 tensors of shapes
    (1, 1, d_1) ... (1, 1, d_n), [encoded_observations] squeezes the two
    leading axes of every stored tensor, collates them with the scalar
    collator and unsqueezes the result: a tensor of shape
    (1, n, max d_i) whose row i holds the i-th tensor followed by the
    padding value 0.  Shapes (1,1,5), (1,1,7), (1,1,5) give (1,3,7). *)
Theorem encoded_observations_padded calls :
  recorded_observations calls ≠ [] →
  Forall (λ t, wf t ∧ ∃ n, shape t = [1; 1; n]) (recorded_observations calls) →
  ∃ r, encoded_observations (run_calls calls __init__) = Ok r
     ∧ encoded_observations (run_calls calls __init__)
       = unsqueeze0 <$> collate_variable_ndim_batch
           (map (λ t, squeeze0 (squeeze0 t)) (recorded_observations calls)) 0
     ∧ shape r = [1; length (recorded_observations calls);
                  max_list (map feature_dim (recorded_observations calls))]
     ∧ (∀ i t j, recorded_observations calls !! i = Some t →
          j < max_list (map feature_dim (recorded_observations calls)) →
          tget r [0; i; j]
          = if decide (j < feature_dim t) then tget t [0; 0; j]
            else Some (cast 0))
     ∧ (map shape (recorded_observations calls)
        = [[1; 1; 5]; [1; 1; 7]; [1; 1; 5]] → shape r = [1; 3; 7]).
Proof.
  intros Hne Hall.
  destruct (collate_steps_spec _ Hne Hall) as (r0 & Hr0 & Hshape & Hget).
  unfold encoded_observations. rewrite run_encoded_observations.
  cbv zeta. unfold padding_value_default in *. rewrite Hr0.
  exists (unsqueeze0 r0). split; [done|]. split; [done|]. split; [done|].
  split; [done|]. intros Hshapes. rewrite Hshape.
  assert (map feature_dim (recorded_observations calls) = [5; 7; 5]) as ->.
  { transitivity (map (λ s, nth 2 s 0)
                    (map shape (recorded_observations calls))).
    - by rewrite map_map.
    - by rewrite Hshapes. }
  by rewrite <- (length_map shape), Hshapes.
Qed.

(** C3.  On a fresh or freshly reset buffer the setter of
    [encoded_prompt] (of [encoded_prompt_mask]) succeeds and the getter
    then returns the value that was set, also after further calls; as long
    as no [reset] intervenes, setting the field again raises [ValueError]
    and leaves the stored value as it is. *)
Theorem prompt_write_once (b0 : Buffer) (v : Tensor E) (m : Tensor bool) b :
  b = __init__ ∨ b = reset b0 →
  (∃ b1, set_encoded_prompt v b = Ok b1
       ∧ encoded_prompt b1 = Ok v
       ∧ ∀ calls v', Forall (λ c, is_reset c = false) calls →
           set_encoded_prompt v' (run_calls calls b1) = Raise ValueError
           ∧ encoded_prompt (run_calls calls b1) = Ok v)
  ∧ (∃ b1, set_encoded_prompt_mask m b = Ok b1
         ∧ encoded_prompt_mask b1 = Ok m
         ∧ ∀ calls m', Forall (λ c, is_reset c = false) calls →
             set_encoded_prompt_mask m' (run_calls calls b1) = Raise ValueError
             ∧ encoded_prompt_mask (run_calls calls b1) = Ok m).
Proof.
  intros Hb. assert (b = __init__) as -> by (by destruct Hb as [->| ->]).
  split.
  - eexists. split; [reflexivity|]. split; [reflexivity|].
    intros calls v' Hcalls.
    unfold set_encoded_prompt, encoded_prompt.
    rewrite run_prompt_preserved by done. done.
  - eexists. split; [reflexivity|]. split; [reflexivity|].
    intros calls m' Hcalls.
    unfold set_encoded_prompt_mask, encoded_prompt_mask.
    rewrite run_prompt_mask_preserved by done. done.
Qed.

(** The derived view of a single stored tensor. *)
Lemma collate_single_step {T} `{!Dtype T} (x : Tensor T) :
  ∃ r rest,
    (collate_variable_ndim_batch [squeeze0 (squeeze0 x)] padding_value_default
       ≫= λ collated, Ok (Some (unsqueeze0 collated))) = Ok (Some r)
    ∧ shape r = 1 :: 1 :: rest ∧ ∀ n, shape x = [1; 1; n] → r = x.
Proof.
  destruct (collate_fast_path [squeeze0 (squeeze0 x)] padding_value_default
              (shape (squeeze0 (squeeze0 x)))) as [-> ->];
    [done|by constructor|].
  eexists _, _. split; [reflexivity|]. split; [reflexivity|].
  intros n Hs. rewrite (squeeze_step x n Hs). unfold unsqueeze0.
  cbn. rewrite app_nil_r. destruct x as [sx dx]. simpl in *. by subst.
Qed.

(** C4.  On a new or freshly reset buffer, and more generally as long as
    no encoded action was appended since the last reset,
    [encoded_actions] and [encoded_actions_mask] return [None] and do not
    raise.  After exactly one [add_next_encoded_action] each returns a
    tensor whose two leading axes (batch and step) have extent 1; for a
    stored tensor of shape (1, 1, d) the view is that tensor itself. *)
Theorem encoded_actions_absent_then_one (b0 : Buffer)
    (t : Tensor E) (m : Tensor bool) b calls :
  b = __init__ ∨ b = reset b0 ∨
    (b = run_calls calls __init__ ∧ recorded_actions calls = []) →
  encoded_actions b = Ok None
  ∧ encoded_actions_mask b = Ok None
  ∧ (∃ r rest, encoded_actions (add_next_encoded_action t m b) = Ok (Some r)
             ∧ shape r = 1 :: 1 :: rest
             ∧ ∀ n, shape t = [1; 1; n] → r = t)
  ∧ (∃ r rest, encoded_actions_mask (add_next_encoded_action t m b) = Ok (Some r)
             ∧ shape r = 1 :: 1 :: rest
             ∧ ∀ n, shape m = [1; 1; n] → r = m).
Proof.
  intros Hb.
  assert (_encoded_actions b = [] ∧ _encoded_action_masks b = []) as [Ha Hm].
  { destruct Hb as [->|[->|[-> Hrec]]]; [done|done|].
    rewrite run_encoded_actions, run_encoded_action_masks. split; [done|].
    pose proof (recorded_action_masks_length calls) as Hlen.
    rewrite Hrec in Hlen. by destruct (recorded_action_masks calls). }
  unfold encoded_actions, encoded_actions_mask. cbn [add_next_encoded_action
    _encoded_actions _encoded_action_masks]. rewrite Ha, Hm. cbn [app].
  split; [done|]. split; [done|]. split.
  - apply (collate_single_step t).
  - apply (collate_single_step m).
Qed.

(** C6.  [reset] puts a buffer in any state back to the empty state of a
    new buffer: every accumulated sequence and both write-once fields are
    empty; a second [reset] changes nothing. *)
Theorem reset_idempotent (b : Buffer) :
  reset b = __init__
  ∧ (_observations (reset b) = [] ∧ _actions (reset b) = []
     ∧ _success_per_step (reset b) = []
     ∧ _encoded_prompt (reset b) = [] ∧ _encoded_prompt_mask (reset b) = []
     ∧ _encoded_observations (reset b) = []
     ∧ _encoded_observation_masks (reset b) = []
     ∧ _encoded_actions (reset b) = [] ∧ _encoded_action_masks (reset b) = [])
  ∧ reset (reset b) = reset b
  ∧ ∀ calls, run_calls (calls ++ [CallReset; CallReset]) b
             = run_calls (calls ++ [CallReset]) b.
Proof.
  repeat split. intros calls. unfold run. by rewrite !foldl_app.
Qed.

Lemma is_successful_spec (b : Buffer) :
  is_successful b = Ok (default false (last (_success_per_step b))).
Proof.
  unfold is_successful, py_getitem.
  destruct (_success_per_step b) as [|x l _] using rev_ind; [done|].
  rewrite last_snoc, length_app. cbn [length default].
  rewrite !(decide_False (P := (0 ≤ -1)%Z)) by lia.
  rewrite decide_True by lia.
  replace (Z.to_nat (Z.of_nat (length l + 1) + -1)) with (length l) by lia.
  by rewrite list_lookup_middle.
Qed.

(** C8.  [is_successful] never raises; it returns the most recently
    appended success flag, and [False] when no flag has been appended (since
    the last reset).  So it is true exactly when at least one flag has been
    appended and the last one is true. *)
Theorem is_successful_last_flag (b : Buffer) calls :
  (∃ v, is_successful b = Ok v)
  ∧ (is_successful b = Ok true
     ↔ ∃ flags, _success_per_step b = flags ++ [true])
  ∧ (_success_per_step b = [] → is_successful b = Ok false)
  ∧ (∀ f, is_successful (update_success_tracker f b) = Ok f)
  ∧ is_successful (run_calls calls __init__)
    = Ok (default false (last (recorded_flags calls))).
Proof.
  split; [|split; [|split; [|split]]].
  - rewrite is_successful_spec. by eexists.
  - rewrite is_successful_spec. split.
    + destruct (_success_per_step b) as [|x l _] using rev_ind; [done|].
      rewrite last_snoc. cbn. intros [= ->]. by exists l.
    + intros [flags ->]. by rewrite last_snoc.
  - rewrite is_successful_spec. by intros ->.
  - intros f. rewrite is_successful_spec. cbn [update_success_tracker _success_per_step].
    by rewrite last_snoc.
  - by rewrite is_successful_spec, run_success_per_step.
Qed.

(** C9.  On a new or freshly reset buffer, and more generally as long as
    no encoded observation was appended since the last reset,
    [encoded_observations] and [encoded_observation_masks] raise
    [IndexError] (the collator indexes the empty list), whereas
    [encoded_actions] and [encoded_actions_mask] return [None] when their
    lists are empty, as they are on a new or reset buffer. *)
Theorem encoded_observations_empty_raises (b0 : Buffer) b calls :
  b = __init__ ∨ b = reset b0 ∨
    (b = run_calls calls __init__ ∧ recorded_observations calls = []) →
  encoded_observations b = Raise IndexError
  ∧ encoded_observation_masks b = Raise IndexError
  ∧ (_encoded_actions b = [] → encoded_actions b = Ok None)
  ∧ (_encoded_action_masks b = [] → encoded_actions_mask b = Ok None)
  ∧ (b = __init__ ∨ b = reset b0 →
     encoded_actions b = Ok None ∧ encoded_actions_mask b = Ok None).
Proof.
  intros Hb.
  assert (_encoded_observations b = [] ∧ _encoded_observation_masks b = [])
    as [Ho Hm].
  { destruct Hb as [->|[->|[-> Hrec]]]; [done|done|].
    rewrite run_encoded_observations, run_encoded_observation_masks.
    split; [done|].
    pose proof (recorded_observation_masks_length calls) as Hlen.
    rewrite Hrec in Hlen. by destruct (recorded_observation_masks calls). }
  unfold encoded_observations, encoded_observation_masks, encoded_actions,
    encoded_actions_mask. rewrite Ho, Hm.
  split; [done|]. split; [done|]. split; [by intros ->|]. split; [by intros ->|].
  by intros [->| ->].
Qed.

(** C10.  [len(buffer)] is the number of encoded actions, that is of
    [add_next_encoded_action] calls since the last reset; appending an
    observation, a raw action, a success flag or an encoded observation
    leaves it as it is. *)
Theorem len_counts_encoded_actions (b : Buffer) calls :
  __len__ b = length (_encoded_actions b)
  ∧ __len__ (run_calls calls __init__) = encoded_actions_since_reset 0 calls
  ∧ (∀ o, __len__ (add_observation o b) = __len__ b)
  ∧ (∀ a, __len__ (after_call (AddAction a) b) = __len__ b)
  ∧ (∀ f, __len__ (update_success_tracker f b) = __len__ b)
  ∧ (∀ t m, __len__ (add_next_encoded_observation t m b) = __len__ b
            ∧ num_observations (add_next_encoded_observation t m b)
              = S (num_observations b))
  ∧ (∀ t m, __len__ (add_next_encoded_action t m b) = S (__len__ b)).
Proof.
  split; [done|]. split; [by rewrite run_len|]. split; [done|].
  split; [|split; [done|split]].
  - intros a. unfold after, step, add_action.
    by destruct (model_validate _ _).
  - intros t m. split; [done|]. unfold num_observations. cbn.
    rewrite length_app. simpl. lia.
  - intros t m. unfold __len__, num_actions. cbn.
    rewrite length_app. simpl. lia.
Qed.
End replay_buffer_facts.

(** ** The composite collators *)

Section composite_facts.
Context {A : Type} `{!Dtype A}.

Lemma for_in_ext {X S} (xs : list X) (f g : X → S → result S) st :
  (∀ x st, f x st = g x st) → for_in xs f st = for_in xs g st.
Proof.
  intros Hfg. revert st. induction xs as [|x xs IH]; intros st; [done|].
  simpl. rewrite Hfg. destruct (g x st); [apply IH|done].
Qed.

(** A loop that stores one collated leaf per key. *)
Lemma for_in_leaves (leaf : string → result (Tensor A)) keys
    (acc out : gmap string (Tensor A)) :
  for_in keys (λ k output, r ← leaf k; Ok (<[k := r]> output)) acc = Ok out
  ↔ (∀ k, k ∈ keys → ∃ r, leaf k = Ok r ∧ out !! k = Some r)
    ∧ (∀ k, k ∉ keys → out !! k = acc !! k).
Proof.
  revert acc. induction keys as [|k0 ks IH]; intros acc.
  - simpl. split.
    + intros [= ->]. split; [|done]. intros k Hk. by apply elem_of_nil in Hk.
    + intros [_ Hout]. f_equal. apply map_eq. intros k. symmetry.
      apply Hout. apply not_elem_of_nil.
  - cbn [for_in]. destruct (leaf k0) as [r|e] eqn:Hleaf; cbn [mbind result_bind].
    + rewrite IH. split.
      * intros [Hin Hout]. split.
        -- intros k Hk. destruct (decide (k ∈ ks)) as [Hks|Hks]; [by apply Hin|].
           apply elem_of_cons in Hk as [->|Hk]; [|done].
           exists r. split; [done|]. rewrite Hout by done. apply lookup_insert_eq.
        -- intros k Hk. apply not_elem_of_cons in Hk as [Hne Hk].
           rewrite Hout by done. by apply lookup_insert_ne.
      * intros [Hin Hout]. split.
        -- intros k Hk. apply Hin. by right.
        -- intros k Hk. destruct (decide (k = k0)) as [->|Hne].
           ++ destruct (Hin k0) as (r' & Hr' & ->); [by left|].
              rewrite lookup_insert_eq. congruence.
           ++ rewrite lookup_insert_ne by done. apply Hout.
              by apply not_elem_of_cons.
    + split; [done|]. intros [Hin _].
      destruct (Hin k0) as (r & Hr & _); [by left|]. congruence.
Qed.

(** C7.  The composite collators visit a fixed set of keys and send every
    leaf on its own through the scalar collator.  [collate_object_features]
    collates, with padding value 0, the six leaves bbox/cropped_img/mask x
    front/top and returns them in a map of the same nesting, raising what
    the first failing leaf raises.  [collate_rgb_images] does so for the
    views front/top, with padding value 0.  [collate_action_batch], with
    its default padding value -100, succeeds exactly when every pose-action
    type collates, and its result holds under every such type the
    collated leaf and no other key. *)
Theorem composite_collators_leafwise (PoseActionType : list string)
    (image_batches : list (gmap string (gmap string (Tensor A))))
    (rgb_images batches : list (gmap string (Tensor A))) :
  collate_object_features image_batches
  = (bf ← object_leaf image_batches "bbox" "front" 0;
     bt ← object_leaf image_batches "bbox" "top" 0;
     cf ← object_leaf image_batches "cropped_img" "front" 0;
     ct ← object_leaf image_batches "cropped_img" "top" 0;
     mf ← object_leaf image_batches "mask" "front" 0;
     mt ← object_leaf image_batches "mask" "top" 0;
     Ok (<["mask" := <["top" := mt]> (<["front" := mf]> ∅)]>
         (<["cropped_img" := <["top" := ct]> (<["front" := cf]> ∅)]>
          (<["bbox" := <["top" := bt]> (<["front" := bf]> ∅)]> ∅))))
  ∧ (∀ out,
      collate_rgb_images rgb_images = Ok out
      ↔ (∀ k, k ∈ ViewLiteral →
           ∃ r, flat_leaf rgb_images k 0 = Ok r ∧ out !! k = Some r)
        ∧ (∀ k, k ∉ ViewLiteral → out !! k = None))
  ∧ ∀ out,
      collate_action_batch PoseActionType batches action_padding_value_default
      = Ok out
      ↔ (∀ k, k ∈ PoseActionType →
           ∃ r, flat_leaf batches k (-100) = Ok r ∧ out !! k = Some r)
        ∧ (∀ k, k ∉ PoseActionType → out !! k = None).
Proof.
  split.
  - unfold collate_object_features, ObjectFeatureName, ViewLiteral, object_leaf,
      padding_value_default.
    cbn [for_in].
    repeat match goal with
    | |- context [mbind _ (mapM ?f ?l)] =>
        destruct (mapM f l); cbn [mbind result_bind]; [|done]
    | |- context [mbind _ (collate_variable_ndim_batch ?l ?p)] =>
        destruct (collate_variable_ndim_batch l p);
        cbn [mbind result_bind]; [|done]
    | |- context [dict_getitem (<[?k := ?v]> ?m) ?k] =>
        unfold dict_getitem at 1; rewrite (lookup_insert_eq m k v);
        cbn [mbind result_bind]; rewrite (insert_insert_eq m k)
    end.
    reflexivity.
  - split.
    { intros out. unfold collate_rgb_images, padding_value_default.
      rewrite (for_in_ext _ _
                 (λ k output, r ← flat_leaf rgb_images k 0;
                              Ok (<[k := r]> output))).
      + rewrite for_in_leaves. by setoid_rewrite lookup_empty.
      + intros k output. unfold flat_leaf.
        by destruct (mapM _ rgb_images). }
    intros out. unfold collate_action_batch, action_padding_value_default.
    rewrite (for_in_ext _ _
               (λ k output, r ← flat_leaf batches k (-100);
                            Ok (<[k := r]> output))).
    + rewrite for_in_leaves. by setoid_rewrite lookup_empty.
    + intros k output. unfold flat_leaf.
      by destruct (mapM _ batches).
Qed.
End composite_facts.

(** ** The statements at concrete inputs *)

Lemma encoded_observations_padded_witness :
  ∃ r, encoded_observations (run accept_all scenario_calls __init__) = Ok r
     ∧ shape r = [1; 3; 7]
     ∧ tget r [0; 0; 4] = Some 5%Z
     ∧ tget r [0; 0; 5] = Some 0%Z
     ∧ tget r [0; 1; 6] = Some 17%Z.
Proof.
  destruct (encoded_observations_padded accept_all scenario_calls)
    as (r & Hr & _ & _ & Hget & Hshape).
  - done.
  - repeat constructor; by eexists.
  - exists r. split; [done|]. split; [by apply Hshape|].
    split; [|split].
    + by rewrite (Hget 0 step5 4 eq_refl) by (cbn; lia).
    + by rewrite (Hget 0 step5 5 eq_refl) by (cbn; lia).
    + by rewrite (Hget 1 step7 6 eq_refl) by (cbn; lia).
Defined.

Lemma prompt_write_once_witness :
  ∃ b1 : @ReplayBuffer unit unit Z,
    set_encoded_prompt step5 __init__ = Ok b1
    ∧ encoded_prompt b1 = Ok step5
    ∧ set_encoded_prompt step7 (run accept_all scenario_calls b1)
      = Raise ValueError.
Proof.
  destruct (prompt_write_once accept_all
              (__init__ : @ReplayBuffer unit unit Z) step5 mask5 __init__
              (or_introl eq_refl)) as [(b1 & Hset & Hget & Hagain) _].
  exists b1. split; [done|]. split; [done|].
  apply (Hagain scenario_calls step7). repeat constructor.
Defined.

Lemma encoded_actions_absent_then_one_witness :
  encoded_actions (__init__ : @ReplayBuffer unit unit Z) = Ok None
  ∧ encoded_actions
      (add_next_encoded_action step5 mask5 (__init__ : @ReplayBuffer unit unit Z))
    = Ok (Some step5).
Proof.
  destruct (encoded_actions_absent_then_one accept_all
              (__init__ : @ReplayBuffer unit unit Z) step5 mask5 __init__ []
              (or_introl eq_refl))
    as (Hnone & _ & (r & rest & Hr & _ & Hsame) & _).
  split; [done|]. by rewrite Hr, (Hsame 5 eq_refl).
Defined.

Lemma encoded_observations_empty_raises_witness :
  encoded_observations (reset (run accept_all scenario_calls __init__))
  = Raise IndexError
  ∧ encoded_actions (reset (run accept_all scenario_calls __init__))
    = Ok None.
Proof.
  destruct (encoded_observations_empty_raises accept_all
              (run accept_all scenario_calls __init__)
              (reset (run accept_all scenario_calls __init__)) [])
    as (Hobs & _ & _ & _ & Hact).
  - right. by left.
  - split; [done|]. apply Hact. by right.
Defined.

(** * Further properties of the code *)

(** ** The collator: errors, single tensors, slices, order *)

Section collate_more.
Context {A : Type} `{!Dtype A}.
Implicit Types (t u : Tensor A) (batch : list (Tensor A)).

Lemma tensor_of_rows_ragged batch :
  batch ≠ [] →
  ¬ (∃ rank, Forall (λ t, length (shape t) = rank) batch) →
  tensor_of_rows (map (λ i, map Z.of_nat (shape i)) batch) = Raise ValueError.
Proof.
  intros Hne Hrank. destruct batch as [|t0 rest]; [done|].
  unfold tensor_of_rows. cbn [map]. rewrite decide_False; [done|].
  intros Hall. apply Hrank. exists (length (shape t0)).
  change (map Z.of_nat (shape t0) :: map (λ i, map Z.of_nat (shape i)) rest)
    with (map (λ i, map Z.of_nat (shape i)) (t0 :: rest)) in Hall.
  apply Forall_fmap in Hall. eapply Forall_impl; [exact Hall|].
  intros t Ht. simpl in Ht. by rewrite !length_map in Ht.
Qed.

Lemma collate_ragged batch (p : Z) :
  batch ≠ [] →
  ¬ (∃ rank, Forall (λ t, length (shape t) = rank) batch) →
  collate_variable_ndim_batch batch p = Raise ValueError.
Proof.
  intros Hne Hrank. unfold collate_variable_ndim_batch.
  assert (∃ t0, py_getitem batch 0 = Ok t0) as [t0 ->].
  { destruct batch as [|t0 rest]; [done|]. by exists t0. }
  cbn [mbind result_bind]. by rewrite tensor_of_rows_ragged.
Qed.

Lemma same_rank_dec batch :
  (∃ rank, Forall (λ t, length (shape t) = rank) batch)
  ∨ ¬ (∃ rank, Forall (λ t, length (shape t) = rank) batch).
Proof.
  destruct batch as [|t0 rest]; [left; exists 0; constructor|].
  destruct (decide (Forall (λ t, length (shape t) = length (shape t0))
                      (t0 :: rest))) as [Hall|Hall].
  - left. by eexists.
  - right. intros [rank Hrank]. apply Hall.
    pose proof Hrank as [H0 _]%Forall_cons.
    eapply Forall_impl; [exact Hrank|]. intros t Ht. simpl in *. congruence.
Qed.

(** X1.  On tensors that hold as many elements as their shape says, the
    collator raises [IndexError] exactly on the empty batch and
    [ValueError] exactly on a non-empty batch whose tensors do not all have
    the same rank; it raises nothing else, and returns a tensor in every
    other case. *)
Theorem collate_error_cases batch (p : Z) :
  Forall wf batch →
  (collate_variable_ndim_batch batch p = Raise IndexError ↔ batch = [])
  ∧ (collate_variable_ndim_batch batch p = Raise ValueError
     ↔ batch ≠ []
       ∧ ¬ (∃ rank, Forall (λ t, length (shape t) = rank) batch))
  ∧ (∀ e, collate_variable_ndim_batch batch p = Raise e
          → e = IndexError ∨ e = ValueError)
  ∧ (batch ≠ [] →
     (∃ rank, Forall (λ t, length (shape t) = rank) batch) →
     ∃ r, collate_variable_ndim_batch batch p = Ok r).
Proof.
  intros Hwf.
  destruct (decide (batch = [])) as [->|Hne].
  { repeat split; try done.
    - by intros [? _].
    - intros e [= <-]. by left. }
  destruct (same_rank_dec batch) as [[rank Hrank]|Hrank].
  - destruct (collate_spec batch p rank Hne Hwf Hrank) as (r & Hr & _).
    rewrite Hr. split; [split; [done|by intros ->]|].
    split; [split; [done|]|split; [done|by exists r]].
    intros [_ Hno]. destruct Hno. by exists rank.
  - rewrite (collate_ragged batch p Hne Hrank).
    split; [split; [done|by intros ->]|].
    split; [split; [by intros _|done]|].
    split; [|done]. intros e [= <-]. by right.
Qed.

(** X2.  A batch of one tensor is returned with a new leading axis of
    extent 1 and nothing else changed, whatever the padding value. *)
Theorem collate_singleton t (p : Z) :
  collate_variable_ndim_batch [t] p = Ok (unsqueeze0 t).
Proof.
  destruct (collate_fast_path [t] p (shape t)) as [-> ->];
    [done|by constructor|].
  unfold unsqueeze0. cbn [length map concat data shape].
  by rewrite app_nil_r.
Qed.

Lemma chunk_S (m i : nat) (d : list A) :
  chunk m (S i) d = chunk m i (drop m d).
Proof.
  unfold chunk. rewrite drop_drop. reflexivity.
Qed.

Lemma concat_chunks (n m : nat) (d : list A) :
  length d = n * m → concat (chunks n m d) = d.
Proof.
  revert d. induction n as [|n IH]; intros d Hd.
  - simpl in *. by destruct d.
  - unfold chunks. rewrite <- cons_seq. cbn [map concat].
    rewrite <- fmap_S_seq.
    change (map ?f (S <$> ?l)) with (map f (map S l)). rewrite map_map.
    erewrite map_ext; [|intros i; apply chunk_S].
    change (map (λ i, chunk m i (drop m d)) (seq 0 n))
      with (chunks n m (drop m d)).
    rewrite IH; cycle 1.
    { rewrite length_drop. lia. }
    unfold chunk. rewrite Nat.mul_0_l, drop_0. apply take_drop.
Qed.

Lemma mapM_Ok_map {X Y} (f : X → result Y) (g : X → Y) (l : list X) :
  Forall (λ x, f x = Ok (g x)) l → mapM f l = Ok (map g l).
Proof.
  induction 1 as [|x l Hx _ IH]; [done|].
  cbn. rewrite Hx. cbn. by rewrite IH.
Qed.

(** X3.  Taking a tensor apart along its leading axis and collating the
    slices gives the tensor back. *)
Theorem collate_slices_roundtrip (r : Tensor A) (n : nat) (s : list nat)
    (p : Z) :
  wf r → shape r = n :: s → 0 < n →
  ∃ slices, mapM (select r) (seq 0 n) = Ok slices
          ∧ length slices = n
          ∧ collate_variable_ndim_batch slices p = Ok r.
Proof.
  intros Hwf Hs Hn.
  set (slice := λ i, mkTensor s (chunk (numel s) i (data r))).
  exists (map slice (seq 0 n)). split; [|split].
  - apply mapM_Ok_map. apply Forall_forall. intros i Hi.
    apply elem_of_seq in Hi. unfold select. rewrite Hs.
    by rewrite decide_True by lia.
  - by rewrite length_map, length_seq.
  - destruct (collate_fast_path (map slice (seq 0 n)) p s) as [-> ->].
    + destruct n; [lia|done].
    + apply Forall_fmap, Forall_true. done.
    + rewrite length_map, length_seq, map_map. cbn [slice data].
      change (map (λ x, chunk (numel s) x (data r)) (seq 0 n))
        with (chunks n (numel s) (data r)).
      rewrite concat_chunks.
      * destruct r as [sr dr]. simpl in *. by subst.
      * unfold wf in Hwf. by rewrite Hwf, Hs.
Qed.

Lemma max_list_perm (l l' : list nat) : l ≡ₚ l' → max_list l = max_list l'.
Proof.
  induction 1 as [|x l l' _ IH|x y l|l l' l'' _ IH1 _ IH2]; simpl; lia.
Qed.

Lemma target_shape_perm batch batch' rank :
  Forall (λ t, length (shape t) = rank) batch → batch ≡ₚ batch' →
  target_shape batch = target_shape batch'.
Proof.
  intros Hrank Hperm.
  assert (Forall (λ t, length (shape t) = rank) batch') as Hrank'.
  { by rewrite <- Hperm. }
  destruct batch as [|t0 rest], batch' as [|t0' rest']; try done.
  - by apply Permutation_nil_cons in Hperm.
  - symmetry in Hperm. by apply Permutation_nil_cons in Hperm.
  - unfold target_shape.
    apply Forall_cons in Hrank as [-> _]. apply Forall_cons in Hrank' as [-> _].
    apply map_ext. intros k. apply max_list_perm.
    change (map ?f ?l) with (f <$> l). by rewrite Hperm.
Qed.

(** X4.  The padding of a tensor does not depend on its place in the
    batch: collating a reordered batch gives a result of the same shape,
    in which every tensor has the slice it has in the first result. *)
Theorem collate_permutation batch batch' (p : Z) rank :
  batch ≠ [] → Forall wf batch →
  Forall (λ t, length (shape t) = rank) batch → batch ≡ₚ batch' →
  ∃ r r', collate_variable_ndim_batch batch p = Ok r
        ∧ collate_variable_ndim_batch batch' p = Ok r'
        ∧ shape r' = shape r
        ∧ ∀ i j t idx, batch !! i = Some t → batch' !! j = Some t →
            in_bounds (target_shape batch) idx →
            tget r' (j :: idx) = tget r (i :: idx).
Proof.
  intros Hne Hwf Hrank Hperm.
  assert (batch' ≠ []) as Hne'.
  { intros ->. by apply Permutation_nil_r in Hperm. }
  assert (Forall wf batch') as Hwf' by (by rewrite <- Hperm).
  assert (Forall (λ t, length (shape t) = rank) batch') as Hrank'.
  { by rewrite <- Hperm. }
  destruct (collate_spec batch p rank) as (r & Hr & Hs & _ & Hget); try done.
  destruct (collate_spec batch' p rank) as (r' & Hr' & Hs' & _ & Hget');
    try done.
  rewrite <- (target_shape_perm batch batch' rank Hrank Hperm) in Hs', Hget'.
  exists r, r'. split; [done|]. split; [done|]. split.
  - rewrite Hs, Hs'. f_equal. symmetry. by apply Permutation_length.
  - intros i j t idx Hi Hj Hidx.
    by rewrite (Hget i t idx Hi Hidx), (Hget' j t idx Hj Hidx).
Qed.
End collate_more.

Lemma collate_error_cases_witness :
  collate_variable_ndim_batch [scenario_a; mkTensor [2] [1; 2]%Z] 0
  = Raise ValueError.
Proof.
  apply (collate_error_cases [scenario_a; mkTensor [2] [1; 2]%Z] 0).
  - repeat constructor.
  - split; [done|]. intros [rank Hrank].
    apply Forall_cons in Hrank as [H1 Hrank].
    apply Forall_cons in Hrank as [H2 _]. simpl in *. congruence.
Defined.

Lemma collate_slices_roundtrip_witness :
  ∃ slices, mapM (select scenario_b) (seq 0 4) = Ok slices
          ∧ length slices = 4
          ∧ collate_variable_ndim_batch slices 0 = Ok scenario_b.
Proof.
  apply (collate_slices_roundtrip scenario_b 4 [1] 0); [reflexivity|reflexivity|lia].
Defined.

Lemma collate_permutation_witness :
  ∃ r r', collate_variable_ndim_batch [scenario_a; scenario_b] 0 = Ok r
        ∧ collate_variable_ndim_batch [scenario_b; scenario_a] 0 = Ok r'
        ∧ shape r' = shape r
        ∧ tget r' [1; 0; 2] = tget r [0; 0; 2].
Proof.
  destruct (collate_permutation [scenario_a; scenario_b]
              [scenario_b; scenario_a] 0 2) as (r & r' & Hr & Hr' & Hs & Hget).
  - done.
  - repeat constructor.
  - repeat constructor.
  - apply perm_swap.
  - exists r, r'. split; [done|]. split; [done|]. split; [done|].
    apply (Hget 0 1 scenario_a [0; 2]); [done|done|].
    repeat constructor.
Defined.

(** ** The composite collators: missing keys, the batch axis *)

Section composite_more.
Context {A : Type} `{!Dtype A}.
Implicit Types (t u : Tensor A) (batch : list (Tensor A)).

Lemma pad_pairs_raises (padding : list Z) e :
  pad_pairs padding = Raise e → e = RuntimeError.
Proof.
  assert (∀ l : list Z,
    (∀ e, pad_pairs l = Raise e → e = RuntimeError)
    ∧ (∀ x e, pad_pairs (x :: l) = Raise e → e = RuntimeError)) as H.
  { induction l as [|y l [IH1 IH2]]; split.
    - done.
    - by intros x e' [= <-].
    - exact (IH2 y).
    - intros x e'. cbn [pad_pairs]. destruct (pad_pairs l) eqn:Hl; cbn; [done|].
      intros [= <-]. by apply IH1. }
  apply H.
Qed.

Lemma pad_raises t (padding : list Z) (value : A) e :
  pad t padding value = Raise e → e = RuntimeError.
Proof.
  unfold pad. destruct (pad_pairs padding) eqn:Hpairs; cbn.
  - repeat case_decide; by intros [= <-].
  - intros [= <-]. by eapply pad_pairs_raises.
Qed.

Lemma loop_body_outcome (p : Z) t (row : list Z) acc :
  match loop_body p t row acc with
  | Ok out => ∃ u, out = acc ++ [u]
  | Raise e => e = RuntimeError
  end.
Proof.
  unfold loop_body. destruct (all_zero row); [by eexists|].
  cbv zeta. destruct (pad t _ _) as [u|e] eqn:Hpad; cbn [mbind result_bind].
  - by eexists.
  - by eapply pad_raises.
Qed.

(** The loop appends one tensor per element, or raises. *)
Lemma loop_outcome (p : Z) batch (rows : list (list Z)) acc :
  match for_zip_strict batch rows (loop_body p) acc with
  | Ok out => length out = length acc + length batch
  | Raise e => e = ValueError ∨ e = RuntimeError
  end.
Proof.
  revert rows acc. induction batch as [|t batch IH]; intros [|row rows] acc;
    cbn [for_zip_strict]; try (by left); try (simpl; lia).
  pose proof (loop_body_outcome p t row acc) as Hbody.
  destruct (loop_body p t row acc) as [out|e]; cbn [mbind result_bind].
  - destruct Hbody as [u ->]. specialize (IH rows (acc ++ [u])).
    destruct (for_zip_strict _ _ _ _); [|done].
    rewrite length_app in IH. simpl in *. lia.
  - by right.
Qed.

Lemma stack_outcome (ts : list (Tensor A)) :
  match stack ts with
  | Ok r => ∃ s, shape r = length ts :: s
  | Raise e => e = RuntimeError
  end.
Proof.
  unfold stack. destruct ts as [|t0 ts]; [done|].
  case_decide; [by eexists|done].
Qed.

(** Whatever the tensors, a result of the collator has the length of the
    batch as its leading extent, and the collator never raises
    [KeyError]. *)
Lemma collate_outcome batch (p : Z) :
  match collate_variable_ndim_batch batch p with
  | Ok r => ∃ s, shape r = length batch :: s
  | Raise e => e ≠ KeyError
  end.
Proof.
  unfold collate_variable_ndim_batch.
  destruct batch as [|t0 rest]; [done|].
  change (py_getitem (t0 :: rest) 0) with (Ok t0). cbn [mbind result_bind].
  set (batch := t0 :: rest).
  destruct (tensor_of_rows _) as [rows|e] eqn:Hrows; cbn [mbind result_bind];
    cycle 1.
  { unfold tensor_of_rows in Hrows. cbn [batch map] in Hrows.
    case_decide; [done|]. by injection Hrows as <-. }
  destruct (max_dim0 rows) as [m|e] eqn:Hmax; cbn [mbind result_bind]; cycle 1.
  { unfold max_dim0 in Hmax. destruct rows; [|done]. by injection Hmax as <-. }
  destruct (all_zero_matrix _).
  - pose proof (stack_outcome batch) as Hst.
    destruct (stack batch); [done|]. by subst.
  - pose proof (loop_outcome p batch (broadcast_sub m rows) []) as Hloop.
    destruct (for_zip_strict _ _ _ _) as [ts|e]; cbn [mbind result_bind].
    + pose proof (stack_outcome ts) as Hst.
      destruct (stack ts); [|by subst]. destruct Hst as [s Hs].
      exists s. by rewrite Hs, Hloop.
    + by destruct Hloop as [-> | ->].
Qed.

Lemma mapM_Ok_length {X Y} (f : X → result Y) (l : list X) ys :
  mapM f l = Ok ys → length ys = length l.
Proof.
  revert ys. induction l as [|x l IH]; intros ys; cbn.
  - by intros [= <-].
  - destruct (f x); cbn; [|done]. destruct (mapM f l); cbn; [|done].
    intros [= <-]. simpl. f_equal. by apply IH.
Qed.

Lemma mapM_Raise_elem {X Y} (f : X → result Y) (l : list X) e :
  mapM f l = Raise e → ∃ x, x ∈ l ∧ f x = Raise e.
Proof.
  induction l as [|x l IH]; cbn; [done|].
  destruct (f x) eqn:Hx; cbn.
  - destruct (mapM f l); cbn; [done|]. intros [= <-].
    destruct IH as (x' & Hin & Hx'); [done|]. exists x'. split; [by right|done].
  - intros [= <-]. exists x. split; [by left|done].
Qed.

Lemma mapM_fails {X Y} (f : X → result Y) (l : list X) x e :
  x ∈ l → f x = Raise e → ∃ e', mapM f l = Raise e'.
Proof.
  intros Hin Hx. induction Hin as [x l|x y l _ IH]; cbn.
  - rewrite Hx. by eexists.
  - destruct (f y); cbn; [|by eexists].
    destruct (IH Hx) as [e' ->]. by eexists.
Qed.

(** The leaves of [collate_object_features], in the order of the loops. *)
Lemma collate_object_features_leaves
    (image_batches : list (gmap string (gmap string (Tensor A)))) :
  collate_object_features image_batches
  = (bf ← object_leaf image_batches "bbox" "front" 0;
     bt ← object_leaf image_batches "bbox" "top" 0;
     cf ← object_leaf image_batches "cropped_img" "front" 0;
     ct ← object_leaf image_batches "cropped_img" "top" 0;
     mf ← object_leaf image_batches "mask" "front" 0;
     mt ← object_leaf image_batches "mask" "top" 0;
     Ok (<["mask" := <["top" := mt]> (<["front" := mf]> ∅)]>
         (<["cropped_img" := <["top" := ct]> (<["front" := cf]> ∅)]>
          (<["bbox" := <["top" := bt]> (<["front" := bf]> ∅)]> ∅)))).
Proof.
  unfold collate_object_features, ObjectFeatureName, ViewLiteral, object_leaf,
    padding_value_default.
  cbn [for_in].
  repeat match goal with
  | |- context [mbind _ (mapM ?f ?l)] =>
      destruct (mapM f l); cbn [mbind result_bind]; [|done]
  | |- context [mbind _ (collate_variable_ndim_batch ?l ?p)] =>
      destruct (collate_variable_ndim_batch l p);
      cbn [mbind result_bind]; [|done]
  | |- context [dict_getitem (<[?k := ?v]> ?m) ?k] =>
      unfold dict_getitem at 1; rewrite (lookup_insert_eq m k v);
      cbn [mbind result_bind]; rewrite (insert_insert_eq m k)
  end.
  reflexivity.
Qed.

(** When [collate_object_features] returns, what it holds under a feature
    name and a view is the collated leaf, and it holds nothing else. *)
Lemma collate_object_features_Ok
    (image_batches : list (gmap string (gmap string (Tensor A)))) out :
  collate_object_features image_batches = Ok out →
  ∀ f v, (out !! f ≫= (.!! v))
         = if bool_decide (f ∈ ObjectFeatureName ∧ v ∈ ViewLiteral)
           then match object_leaf image_batches f v 0 with
                | Ok r => Some r
                | Raise _ => None
                end
           else None.
Proof.
  rewrite collate_object_features_leaves.
  destruct (object_leaf image_batches "bbox" "front" 0) as [bf|] eqn:Hbf;
    [|done].
  destruct (object_leaf image_batches "bbox" "top" 0) as [bt|] eqn:Hbt;
    [|done].
  destruct (object_leaf image_batches "cropped_img" "front" 0) as [cf|] eqn:Hcf;
    [|done].
  destruct (object_leaf image_batches "cropped_img" "top" 0) as [ct|] eqn:Hct;
    [|done].
  destruct (object_leaf image_batches "mask" "front" 0) as [mf|] eqn:Hmf;
    [|done].
  destruct (object_leaf image_batches "mask" "top" 0) as [mt|] eqn:Hmt;
    [|done].
  cbn [mbind result_bind]. intros [= <-] f v.
  unfold ObjectFeatureName, ViewLiteral.
  assert (∀ (x : string) (P : Prop) `{!Decision P} (y z : option (Tensor A)),
            (P → y = z) → (¬ P → y = None) →
            y = if bool_decide P then z else None) as Hcase.
  { intros x P ? y z H1 H2. case_bool_decide; auto. }
  apply (Hcase f).
  - intros [Hf Hv].
    repeat (apply elem_of_cons in Hf as [->|Hf]); [| | |by apply elem_of_nil in Hf];
      (repeat (apply elem_of_cons in Hv as [->|Hv]);
        [| |by apply elem_of_nil in Hv]);
      rewrite ?Hbf, ?Hbt, ?Hcf, ?Hct, ?Hmf, ?Hmt;
      repeat (rewrite lookup_insert_ne by done);
      rewrite lookup_insert_eq; cbn;
      repeat (rewrite lookup_insert_ne by done);
      by rewrite lookup_insert_eq.
  - intros Hno.
    destruct (decide (f = "mask")) as [->|Hm];
      [|destruct (decide (f = "cropped_img")) as [->|Hc];
        [|destruct (decide (f = "bbox")) as [->|Hb]]];
      repeat (rewrite lookup_insert_ne by done);
      rewrite ?lookup_insert_eq, ?lookup_empty; cbn; try done;
      (destruct (decide (v = "top")) as [->|Ht];
        [|destruct (decide (v = "front")) as [->|Hf]]);
      repeat (rewrite lookup_insert_ne by done);
      rewrite ?lookup_insert_eq, ?lookup_empty; try done;
      exfalso; apply Hno; unfold ObjectFeatureName, ViewLiteral; set_solver.
Qed.

Lemma collate_object_features_Ok_leaf
    (image_batches : list (gmap string (gmap string (Tensor A)))) out f v :
  collate_object_features image_batches = Ok out →
  f ∈ ObjectFeatureName → v ∈ ViewLiteral →
  ∃ r, object_leaf image_batches f v 0 = Ok r.
Proof.
  rewrite collate_object_features_leaves.
  destruct (object_leaf image_batches "bbox" "front" 0) as [bf|] eqn:Hbf;
    [|done].
  destruct (object_leaf image_batches "bbox" "top" 0) as [bt|] eqn:Hbt;
    [|done].
  destruct (object_leaf image_batches "cropped_img" "front" 0) as [cf|] eqn:Hcf;
    [|done].
  destruct (object_leaf image_batches "cropped_img" "top" 0) as [ct|] eqn:Hct;
    [|done].
  destruct (object_leaf image_batches "mask" "front" 0) as [mf|] eqn:Hmf;
    [|done].
  destruct (object_leaf image_batches "mask" "top" 0) as [mt|] eqn:Hmt;
    [|done].
  intros _ Hf Hv. unfold ObjectFeatureName, ViewLiteral in *.
  repeat (apply elem_of_cons in Hf as [->|Hf]); [| | |by apply elem_of_nil in Hf];
    (repeat (apply elem_of_cons in Hv as [->|Hv]);
      [| |by apply elem_of_nil in Hv]); by eexists.
Qed.

Lemma object_leaf_missing
    (image_batches : list (gmap string (gmap string (Tensor A)))) b f v p :
  b ∈ image_batches → (b !! f ≫= (.!! v)) = None →
  ∃ e, object_leaf image_batches f v p = Raise e.
Proof.
  intros Hb Hmiss. unfold object_leaf.
  destruct (mapM_fails
              (λ image_batch : gmap string (gmap string (Tensor A)),
                 features ← dict_getitem image_batch f;
                 dict_getitem features v) image_batches b KeyError Hb)
    as [e ->]; [|by eexists].
  unfold dict_getitem. destruct (b !! f) as [features|]; [|done].
  cbn in *. by rewrite Hmiss.
Qed.

Lemma object_leaf_KeyError
    (image_batches : list (gmap string (gmap string (Tensor A)))) f v p :
  object_leaf image_batches f v p = Raise KeyError →
  ∃ b, b ∈ image_batches ∧ (b !! f ≫= (.!! v)) = None.
Proof.
  unfold object_leaf.
  destruct (mapM _ image_batches) as [leaves|e] eqn:Hleaves;
    cbn [mbind result_bind].
  - intros Hc. pose proof (collate_outcome leaves p) as Hout.
    by rewrite Hc in Hout.
  - intros [= ->]. apply mapM_Raise_elem in Hleaves as (b & Hb & Hraise).
    exists b. split; [done|]. unfold dict_getitem in Hraise.
    destruct (b !! f) as [features|]; [|done]. cbn in *.
    by destruct (features !! v).
Qed.

(** X5.  [collate_object_features] raises [IndexError] on an empty list;
    it raises [KeyError] only when some element lacks one of the six
    leaves; and it never returns when an element lacks one of them. *)
Theorem collate_object_features_missing
    (image_batches : list (gmap string (gmap string (Tensor A)))) :
  (image_batches = [] →
   collate_object_features image_batches = Raise IndexError)
  ∧ (collate_object_features image_batches = Raise KeyError →
     ∃ b f v, b ∈ image_batches ∧ f ∈ ObjectFeatureName ∧ v ∈ ViewLiteral
              ∧ (b !! f ≫= (.!! v)) = None)
  ∧ (∀ b f v, b ∈ image_batches → f ∈ ObjectFeatureName → v ∈ ViewLiteral →
       (b !! f ≫= (.!! v)) = None →
       ∃ e, collate_object_features image_batches = Raise e).
Proof.
  split; [by intros ->|]. split.
  - rewrite collate_object_features_leaves.
    assert (∀ f v, f ∈ ObjectFeatureName → v ∈ ViewLiteral →
              object_leaf image_batches f v 0 = Raise KeyError →
              ∃ b f v, b ∈ image_batches ∧ f ∈ ObjectFeatureName
                       ∧ v ∈ ViewLiteral ∧ (b !! f ≫= (.!! v)) = None) as Hk.
    { intros f v Hf Hv Hraise.
      apply object_leaf_KeyError in Hraise as (b & Hb & Hmiss).
      by exists b, f, v. }
    unfold ObjectFeatureName, ViewLiteral in Hk.
    destruct (object_leaf image_batches "bbox" "front" 0) as [bf|e] eqn:Hbf;
      cbn [mbind result_bind];
      [|intros [= ->]; eapply Hk; [| |exact Hbf]; set_solver].
    destruct (object_leaf image_batches "bbox" "top" 0) as [bt|e] eqn:Hbt;
      cbn [mbind result_bind];
      [|intros [= ->]; eapply Hk; [| |exact Hbt]; set_solver].
    destruct (object_leaf image_batches "cropped_img" "front" 0)
      as [cf|e] eqn:Hcf; cbn [mbind result_bind];
      [|intros [= ->]; eapply Hk; [| |exact Hcf]; set_solver].
    destruct (object_leaf image_batches "cropped_img" "top" 0)
      as [ct|e] eqn:Hct; cbn [mbind result_bind];
      [|intros [= ->]; eapply Hk; [| |exact Hct]; set_solver].
    destruct (object_leaf image_batches "mask" "front" 0) as [mf|e] eqn:Hmf;
      cbn [mbind result_bind];
      [|intros [= ->]; eapply Hk; [| |exact Hmf]; set_solver].
    destruct (object_leaf image_batches "mask" "top" 0) as [mt|e] eqn:Hmt;
      cbn [mbind result_bind];
      [|intros [= ->]; eapply Hk; [| |exact Hmt]; set_solver].
    done.
  - intros b f v Hb Hf Hv Hmiss.
    destruct (collate_object_features image_batches) as [out|e] eqn:Hout;
      [|by eexists].
    destruct (collate_object_features_Ok_leaf image_batches out f v Hout Hf Hv)
      as [r Hr].
    destruct (object_leaf_missing image_batches b f v 0 Hb Hmiss) as [e He].
    congruence.
Qed.

Lemma mapM_dict_getitem_raises {V} (k : string) (l : list (gmap string V)) e :
  mapM (λ d, dict_getitem d k) l = Raise e → e = KeyError.
Proof.
  intros H. apply mapM_Raise_elem in H as (d & _ & Hd).
  unfold dict_getitem in Hd. destruct (d !! k); [done|]. by injection Hd as <-.
Qed.

(** Looking two keys up in every element, element by element or key by
    key. *)
Lemma mapM_dict_nested {V} (k1 k2 : string)
    (l : list (gmap string (gmap string V))) :
  mapM (λ d, inner ← dict_getitem d k1; dict_getitem inner k2) l
  = (inners ← mapM (λ d, dict_getitem d k1) l;
     mapM (λ inner, dict_getitem inner k2) inners).
Proof.
  induction l as [|d l IH]; [done|].
  cbn [mapM]. rewrite IH. clear IH.
  destruct (dict_getitem d k1) as [inner|e] eqn:H1; cbn [mbind result_bind];
    [|unfold dict_getitem in H1; destruct (d !! k1); [done|congruence]].
  destruct (dict_getitem inner k2) as [x|e] eqn:H2; cbn [mbind result_bind].
  - destruct (mapM (λ d, dict_getitem d k1) l) as [inners|e];
      cbn [mbind result_bind mret result_ret]; [|done].
    cbn [mapM]. rewrite H2. cbn [mbind result_bind]. reflexivity.
  - assert (e = KeyError) as ->.
    { unfold dict_getitem in H2. destruct (inner !! k2); [done|congruence]. }
    destruct (mapM (λ d, dict_getitem d k1) l) as [inners|e] eqn:Hl;
      cbn [mbind result_bind mret result_ret].
    + cbn [mapM]. rewrite H2. reflexivity.
    + by rewrite (mapM_dict_getitem_raises _ _ _ Hl).
Qed.

(** X6.  [collate_image_batch] collates the images under "rgb" exactly as
    [collate_object_features] collates a feature name: after the object
    features, the leaves rgb/front and rgb/top go through the scalar
    collator with padding value 0, and the result is the object features
    with these two leaves under "rgb". *)
Theorem collate_image_batch_rgb_leaves
    (image_batches : list (gmap string (gmap string (Tensor A)))) :
  Collate.collate_image_batch image_batches
  = (object_features ← collate_object_features image_batches;
     rf ← object_leaf image_batches "rgb" "front" 0;
     rt ← object_leaf image_batches "rgb" "top" 0;
     Ok (<["rgb" := <["top" := rt]> (<["front" := rf]> ∅)]> object_features)).
Proof.
  unfold Collate.collate_image_batch, collate_rgb_images, ViewLiteral,
    object_leaf, padding_value_default.
  destruct (collate_object_features image_batches) as [feats|e];
    cbn [mbind result_bind]; [|done].
  rewrite !mapM_dict_nested.
  destruct (mapM (λ d, dict_getitem d "rgb") image_batches) as [rgbs|e];
    cbn [mbind result_bind for_in]; [|done].
  destruct (mapM (λ inner, dict_getitem inner "front") rgbs) as [fs|e];
    cbn [mbind result_bind]; [|done].
  destruct (collate_variable_ndim_batch fs 0) as [rf|e];
    cbn [mbind result_bind]; [|done].
  destruct (mapM (λ inner, dict_getitem inner "top") rgbs) as [ts|e];
    cbn [mbind result_bind]; [|done].
  destruct (collate_variable_ndim_batch ts 0) as [rt|e];
    cbn [mbind result_bind]; done.
Qed.

Lemma collate_rgb_images_Ok (rgb_images : list (gmap string (Tensor A))) out :
  collate_rgb_images rgb_images = Ok out →
  ∀ v r, out !! v = Some r → v ∈ ViewLiteral ∧ flat_leaf rgb_images v 0 = Ok r.
Proof.
  unfold collate_rgb_images, padding_value_default.
  rewrite (for_in_ext _ _
             (λ k output, r ← flat_leaf rgb_images k 0;
                          Ok (<[k := r]> output))); cycle 1.
  { intros k output. unfold flat_leaf. by destruct (mapM _ rgb_images). }
  rewrite for_in_leaves. intros [Hin Hout] v r Hv.
  destruct (decide (v ∈ ViewLiteral)) as [Hview|Hview].
  - split; [done|]. destruct (Hin v Hview) as (r' & Hr' & Hlook). congruence.
  - rewrite (Hout v Hview), lookup_empty in Hv. done.
Qed.

Lemma leaf_leading {X} (f : X → result (Tensor A)) (l : list X) p r :
  (leaves ← mapM f l; collate_variable_ndim_batch leaves p) = Ok r →
  ∃ s, shape r = length l :: s.
Proof.
  destruct (mapM f l) as [leaves|e] eqn:Hleaves; cbn [mbind result_bind];
    [|done].
  intros Hr. pose proof (collate_outcome leaves p) as Hout.
  rewrite Hr in Hout. destruct Hout as [s Hs]. exists s.
  by rewrite Hs, (mapM_Ok_length _ _ _ Hleaves).
Qed.

(** X7.  When [collate_observation_batch] returns, every tensor of its
    result (the end effector, every object feature of every view, every
    image) has the number of observations as its leading extent. *)
Theorem collate_observation_batch_leading
    (observations : list (@Collate.Observation A)) out :
  Collate.collate_observation_batch observations = Ok out →
  (∃ s, shape (Collate.ee out) = length observations :: s)
  ∧ (∀ f v r, (Collate.objects out !! f ≫= (.!! v)) = Some r →
       ∃ s, shape r = length observations :: s)
  ∧ (∀ v r, Collate.rgb out !! v = Some r →
       ∃ s, shape r = length observations :: s).
Proof.
  unfold Collate.collate_observation_batch.
  destruct (collate_variable_ndim_batch _ _) as [e0|] eqn:Hee;
    cbn [mbind result_bind]; [|done].
  destruct (collate_object_features _) as [objs|] eqn:Hobjs;
    cbn [mbind result_bind]; [|done].
  destruct (collate_rgb_images _) as [rgbs|] eqn:Hrgb;
    cbn [mbind result_bind]; [|done].
  intros [= <-]. cbn [Collate.ee Collate.objects Collate.rgb].
  split; [|split].
  - pose proof (collate_outcome (map Collate.ee observations)
                  padding_value_default) as Hout.
    rewrite Hee in Hout. destruct Hout as [s Hs]. exists s.
    by rewrite Hs, length_map.
  - intros f v r Hr.
    rewrite (collate_object_features_Ok _ _ Hobjs f v) in Hr.
    case_bool_decide; [|done].
    destruct (object_leaf _ f v 0) as [r'|] eqn:Hleaf; [|done].
    injection Hr as ->. unfold object_leaf in Hleaf.
    apply leaf_leading in Hleaf as [s Hs]. exists s.
    by rewrite Hs, length_map.
  - intros v r Hr.
    destruct (collate_rgb_images_Ok _ _ Hrgb v r Hr) as [_ Hleaf].
    unfold flat_leaf in Hleaf. apply leaf_leading in Hleaf as [s Hs].
    exists s. by rewrite Hs, length_map.
Qed.
End composite_more.

(** Two observations, one of shape (2,3) and one of shape (4,1) at every
    key. *)
Lemma collate_observation_batch_leading_witness :
  ∃ out,
    Collate.collate_observation_batch
      [scenario_observation scenario_a; scenario_observation scenario_b]
    = Ok out
    ∧ ∃ s, shape (Collate.ee out) = 2 :: s.
Proof.
  destruct (Collate.collate_observation_batch
              [scenario_observation scenario_a; scenario_observation scenario_b])
    as [out|e] eqn:Hout; [|vm_compute in Hout; discriminate Hout].
  exists out. split; [done|].
  by destruct (collate_observation_batch_leading _ _ Hout) as [Hee _].
Defined.

(** ** The replay buffer: lockstep, indices, the prompt, the model instance *)

Section replay_buffer_more.
Context {Observation ContinuousActions PoseAction E ModelInstance : Type}
  `{!Dtype E}.
Variable model_validate : nat → ContinuousActions → result PoseAction.
Variable new_ModelInstance :
  Tensor E → Tensor bool → Tensor E → Tensor bool →
  option (Tensor E) → option (Tensor bool) → result ModelInstance.

Local Abbreviation Buffer := (@ReplayBuffer Observation PoseAction E).
Local Abbreviation call := (@call Observation ContinuousActions E).
Local Abbreviation after_call := (after model_validate).
Local Abbreviation run_calls := (run model_validate).
Implicit Types (b self : Buffer) (c : call) (calls : list call).

Local Ltac call_cases c b :=
  destruct c; unfold after, step, add_action, set_encoded_prompt,
    set_encoded_prompt_mask; cbn;
  try destruct (model_validate _ _) eqn:?;
  try destruct (_encoded_prompt b) eqn:?;
  try destruct (_encoded_prompt_mask b) eqn:?; cbn; try done; try congruence.

Lemma view_None_iff {T} `{!Dtype T} (l : list (Tensor T))
    (x : result (Tensor T)) :
  match l with
  | [] => Ok None
  | _ :: _ => collated ← x; Ok (Some (unsqueeze0 collated))
  end = Ok None ↔ l = [].
Proof.
  destruct l; [done|]. split; [|done]. by destruct x.
Qed.

(** X8.  Whatever the calls on a new buffer, tensors and masks stay in
    lockstep: there are as many observation masks as encoded observations
    and as many action masks as encoded actions; so [encoded_actions] is
    [None] exactly when [encoded_actions_mask] is. *)
Theorem buffer_lockstep calls :
  length (_encoded_observation_masks (run_calls calls __init__))
  = num_observations (run_calls calls __init__)
  ∧ length (_encoded_action_masks (run_calls calls __init__))
    = num_actions (run_calls calls __init__)
  ∧ (encoded_actions (run_calls calls __init__) = Ok None
     ↔ encoded_actions_mask (run_calls calls __init__) = Ok None).
Proof.
  assert (length (_encoded_action_masks (run_calls calls __init__))
          = num_actions (run_calls calls __init__)) as Hact.
  { unfold num_actions.
    rewrite run_encoded_actions, run_encoded_action_masks.
    apply recorded_action_masks_length. }
  split; [|split; [done|]].
  - unfold num_observations.
    rewrite run_encoded_observations, run_encoded_observation_masks.
    apply recorded_observation_masks_length.
  - unfold encoded_actions, encoded_actions_mask. cbv zeta.
    rewrite !view_None_iff. unfold num_actions in Hact.
    split; intros H; rewrite H in Hact; simpl in Hact.
    + by destruct (_encoded_action_masks _).
    + by destruct (_encoded_actions _).
Qed.

Lemma after_actions_indexed c b :
  (∀ k a, _actions b !! k = Some a → ∃ ca, model_validate k ca = Ok a) →
  ∀ k a, _actions (after_call c b) !! k = Some a →
         ∃ ca, model_validate k ca = Ok a.
Proof.
  intros Hb k a. destruct c; unfold after, step, add_action,
    set_encoded_prompt, set_encoded_prompt_mask; cbn;
    try (by apply Hb).
  - destruct (model_validate _ _) as [parsed|] eqn:Hv; cbn; [|by apply Hb].
    intros Hk. apply lookup_app_Some in Hk as [Hk|[Hlen Hk]]; [by apply Hb|].
    apply list_lookup_singleton_Some in Hk as [Hk <-].
    assert (k = length (_actions b)) as -> by lia. by eexists.
  - destruct (_encoded_prompt b); cbn; by apply Hb.
  - destruct (_encoded_prompt_mask b); cbn; by apply Hb.
  - by rewrite lookup_nil.
Qed.

(** X9.  The raw actions of a buffer are numbered in a row from 0 after
    every reset: the action stored at position [k] is one that was
    validated with index [k], also when validations failed in between. *)
Theorem raw_actions_indexed calls k a :
  _actions (run_calls calls __init__) !! k = Some a →
  ∃ continuous_actions, model_validate k continuous_actions = Ok a.
Proof.
  assert (∀ b,
    (∀ k a, _actions b !! k = Some a → ∃ ca, model_validate k ca = Ok a) →
    ∀ k a, _actions (run_calls calls b) !! k = Some a →
           ∃ ca, model_validate k ca = Ok a) as Hrun.
  { induction calls as [|c calls IH]; intros b Hb; [done|].
    rewrite run_cons. apply IH. by apply after_actions_indexed. }
  apply Hrun. intros k' a' H. by destruct k'.
Qed.

Lemma py_getitem_0 {T} (l : list T) :
  py_getitem l 0 = match head l with
                   | Some x => Ok x
                   | None => Raise IndexError
                   end.
Proof. by destruct l. Qed.

(** X10.  Over any sequence of calls on a new buffer, [encoded_prompt]
    returns the first prompt set after the last reset, whatever was set
    later, and raises [IndexError] when none was set since. *)
Theorem encoded_prompt_first_set calls :
  encoded_prompt (run_calls calls __init__)
  = match recorded_prompt calls with
    | Some t => Ok t
    | None => Raise IndexError
    end.
Proof.
  unfold encoded_prompt, recorded_prompt. rewrite py_getitem_0.
  rewrite (run_tracks model_validate (λ b, head (_encoded_prompt b))
    (λ acc c, match c with
              | CallReset => None
              | SetEncodedPrompt t =>
                  match acc with None => Some t | Some _ => acc end
              | _ => acc
              end)); [done|].
  intros b c. call_cases c b.
  all: by match goal with H : _encoded_prompt _ = _ |- _ => rewrite H end.
Qed.

(** X11.  [to_model_instance] raises [IndexError] as long as the prompt,
    its mask or the first encoded observation is missing.  With a prompt,
    a mask and encoded observations and masks of shapes (1, 1, d), and no
    action yet, it builds the instance from the prompt, the mask and the
    two padded views, with [None] for the actions and their mask. *)
Theorem to_model_instance_cases b :
  (_encoded_prompt b = [] ∨ _encoded_prompt_mask b = []
   ∨ _encoded_observations b = [] →
   to_model_instance new_ModelInstance b = Raise IndexError)
  ∧ (∀ p pm,
       _encoded_prompt b = [p] → _encoded_prompt_mask b = [pm] →
       _encoded_observations b ≠ [] → _encoded_observation_masks b ≠ [] →
       Forall (λ t, wf t ∧ ∃ n, shape t = [1; 1; n]) (_encoded_observations b) →
       Forall (λ t, wf t ∧ ∃ n, shape t = [1; 1; n])
         (_encoded_observation_masks b) →
       _encoded_actions b = [] → _encoded_action_masks b = [] →
       ∃ o om, encoded_observations b = Ok o
             ∧ encoded_observation_masks b = Ok om
             ∧ to_model_instance new_ModelInstance b
               = new_ModelInstance p pm o om None None).
Proof.
  split.
  - intros Hmissing. unfold to_model_instance, encoded_prompt,
      encoded_prompt_mask. rewrite !py_getitem_0.
    destruct (_encoded_prompt b) as [|p ps] eqn:Hp; [done|].
    cbn [head mbind result_bind].
    destruct (_encoded_prompt_mask b) as [|pm pms] eqn:Hpm; [done|].
    cbn [head mbind result_bind].
    destruct Hmissing as [?|[?|Hobs]]; [done|done|].
    unfold encoded_observations. by rewrite Hobs.
  - intros p pm Hp Hpm Hobs Hmasks Hshapes Hmshapes Hact Hactm.
    destruct (collate_steps_spec _ Hobs Hshapes) as (o & Ho & _).
    destruct (collate_steps_spec _ Hmasks Hmshapes) as (om & Hom & _).
    exists (unsqueeze0 o), (unsqueeze0 om).
    assert (encoded_observations b = Ok (unsqueeze0 o)) as Heo.
    { unfold encoded_observations. cbv zeta. by rewrite Ho. }
    assert (encoded_observation_masks b = Ok (unsqueeze0 om)) as Hem.
    { unfold encoded_observation_masks. cbv zeta. by rewrite Hom. }
    split; [done|]. split; [done|].
    unfold to_model_instance. rewrite Heo, Hem.
    unfold encoded_prompt, encoded_prompt_mask, encoded_actions,
      encoded_actions_mask. by rewrite Hp, Hpm, Hact, Hactm.
Qed.

(** X12.  The shapes of encoded observations are not checked when they are
    appended: when the stored tensors do not all have the same rank once
    squeezed, it is the read through [encoded_observations] that raises
    [ValueError]. *)
Theorem encoded_observations_rank_mismatch calls :
  ¬ (∃ rank, Forall (λ t, length (shape (squeeze0 (squeeze0 t))) = rank)
               (recorded_observations calls)) →
  encoded_observations (run_calls calls __init__) = Raise ValueError.
Proof.
  intros Hrank. unfold encoded_observations. cbv zeta.
  rewrite run_encoded_observations, collate_ragged; [done| |].
  - destruct (recorded_observations calls); [|done].
    destruct Hrank. exists 0. constructor.
  - intros [rank Hall]. apply Hrank. exists rank.
    by apply Forall_fmap in Hall.
Qed.
End replay_buffer_more.

(** Three actions, with a reset after the first. *)
Lemma raw_actions_indexed_witness :
  ∃ continuous_actions, accept_index 1 continuous_actions = Ok 1.
Proof.
  apply (raw_actions_indexed accept_index action_calls 1 1).
  reflexivity.
Defined.

(** A vector and a matrix, once squeezed. *)
Lemma encoded_observations_rank_mismatch_witness :
  encoded_observations (run accept_all mixed_rank_calls __init__)
  = Raise ValueError.
Proof.
  apply (encoded_observations_rank_mismatch accept_all mixed_rank_calls).
  intros [rank Hrank]. cbn in Hrank.
  apply Forall_cons in Hrank as [H1 Hrank].
  apply Forall_cons in Hrank as [H2 _]. cbn in H1, H2. congruence.
Defined.

(** ** The instance parser *)

Section parser_facts.
Context {Path Metadata PoseAction Observation VIMAInstance : Type}.
Variable load_trajectory_metadata : Path → result Metadata.
Variable parse_pose_actions : Path → result (list PoseAction).
Variable parse_observations : Path → result (list Observation).
Variable get_null_action : PoseAction.
Variable metadata_success : Metadata → result bool.
Variable new_VIMAInstance :
  Path → Metadata → list PoseAction → list Observation → list bool →
  result VIMAInstance.

Local Abbreviation parse_from_instance_dir :=
  (Parse.parse_from_instance_dir load_trajectory_metadata parse_pose_actions
     parse_observations get_null_action metadata_success new_VIMAInstance).

Lemma py_setitem_last (n : nat) :
  py_setitem (replicate n false) (-1) true
  = if decide (1 ≤ n) then Ok (replicate (n - 1) false ++ [true])
    else Raise IndexError.
Proof.
  unfold py_setitem. rewrite length_replicate.
  rewrite (decide_False (P := (0 ≤ -1)%Z)) by lia.
  destruct (decide (1 ≤ n)) as [Hn|Hn].
  - rewrite decide_True by lia.
    replace (Z.to_nat (Z.of_nat n + -1)) with (n - 1) by lia.
    rewrite insert_replicate_lt by lia.
    replace (n - S (n - 1)) with 0 by lia. reflexivity.
  - by rewrite decide_False by lia.
Qed.

Lemma py_setitem_last_but_one (n : nat) :
  1 ≤ n →
  py_setitem (replicate (n - 1) false ++ [true]) (-2) true
  = if decide (2 ≤ n) then Ok (replicate (n - 2) false ++ [true; true])
    else Raise IndexError.
Proof.
  intros Hn. unfold py_setitem.
  rewrite length_app, length_replicate. cbn [length].
  rewrite (decide_False (P := (0 ≤ -2)%Z)) by lia.
  destruct (decide (2 ≤ n)) as [Hn2|Hn2].
  - rewrite decide_True by lia.
    replace (Z.to_nat (Z.of_nat (n - 1 + 1) + -2)) with (n - 2) by lia.
    replace (n - 1) with (S (n - 2)) by lia.
    rewrite replicate_S_end, <- app_assoc. cbn [app].
    rewrite insert_app_r_alt by (rewrite length_replicate; lia).
    rewrite length_replicate, Nat.sub_diag. reflexivity.
  - by rewrite decide_False by lia.
Qed.

Lemma parse_success_per_step_closed (keep : bool) (num_actions : Z)
    (success : bool) :
  Parse._parse_success_per_step (Parse.mkParser keep) num_actions success
  = if negb success then Ok (replicate (Z.to_nat num_actions) false)
    else if keep then
      if decide (2 ≤ Z.to_nat num_actions)
      then Ok (replicate (Z.to_nat num_actions - 2) false ++ [true; true])
      else Raise IndexError
    else
      if decide (1 ≤ Z.to_nat num_actions)
      then Ok (replicate (Z.to_nat num_actions - 1) false ++ [true])
      else Raise IndexError.
Proof.
  unfold Parse._parse_success_per_step. cbn [Parse.keep_null_action].
  destruct success; [|done]. cbn [negb andb]. rewrite py_setitem_last.
  destruct (decide (1 ≤ Z.to_nat num_actions)) as [H1|H1];
    cbn [mbind result_bind].
  - destruct keep; [|done]. rewrite py_setitem_last_but_one by done.
    by destruct (decide (2 ≤ Z.to_nat num_actions)).
  - destruct keep; [|done]. by rewrite decide_False by lia.
Qed.

Lemma parse_success_per_step_Ok (keep : bool) (num_actions : Z)
    (success : bool) tracker :
  Parse._parse_success_per_step (Parse.mkParser keep) num_actions success
  = Ok tracker →
  length tracker = Z.to_nat num_actions
  ∧ (0 < Z.to_nat num_actions → last tracker = Some success).
Proof.
  rewrite parse_success_per_step_closed.
  destruct success; cbn [negb].
  - destruct keep; case_decide; try done; intros [= <-];
      rewrite length_app, length_replicate; cbn [length];
      (split; [lia|]); intros _.
    + by rewrite last_app_cons.
    + by rewrite last_snoc.
  - intros [= <-]. rewrite length_replicate. split; [done|]. intros Hn.
    destruct (Z.to_nat num_actions) as [|n]; [lia|].
    by rewrite replicate_S_end, last_snoc.
Qed.

(** X13.  The success tracker of the parser: all [False] for a failed
    trajectory; for a successful one [True] at the last step, and at the
    last two steps when the null action is kept.  A successful trajectory
    with no step, or with a single step when the null action is kept,
    raises [IndexError].  A tracker that is returned has one flag per
    action, the last one being [is_successful_at_end]. *)
Theorem parse_success_per_step_cases (keep : bool) (num_actions : Z)
    (success : bool) :
  Parse._parse_success_per_step (Parse.mkParser keep) num_actions success
  = (if negb success then Ok (replicate (Z.to_nat num_actions) false)
     else if keep then
       if decide (2 ≤ Z.to_nat num_actions)
       then Ok (replicate (Z.to_nat num_actions - 2) false ++ [true; true])
       else Raise IndexError
     else
       if decide (1 ≤ Z.to_nat num_actions)
       then Ok (replicate (Z.to_nat num_actions - 1) false ++ [true])
       else Raise IndexError)
  ∧ ∀ tracker,
      Parse._parse_success_per_step (Parse.mkParser keep) num_actions success
      = Ok tracker →
      length tracker = Z.to_nat num_actions
      ∧ (0 < Z.to_nat num_actions → last tracker = Some success).
Proof.
  split; [apply parse_success_per_step_closed|].
  apply parse_success_per_step_Ok.
Qed.

(** X14.  When [parse_from_instance_dir] returns, the instance was built
    from pose actions, observations and success flags of one and the same
    length: the loaded actions, with the null action at the end when it is
    kept; the loaded observations, cut to the number of actions when it is
    not; and a tracker whose last flag is the [success] entry of the
    metadata. *)
Theorem parse_from_instance_dir_lengths (keep : bool) (instance_dir : Path)
    instance :
  parse_from_instance_dir (Parse.mkParser keep) instance_dir = Ok instance →
  ∃ metadata raw_actions raw_observations success flags,
    load_trajectory_metadata instance_dir = Ok metadata
    ∧ parse_pose_actions instance_dir = Ok raw_actions
    ∧ parse_observations instance_dir = Ok raw_observations
    ∧ metadata_success metadata = Ok success
    ∧ let pose_actions :=
        if keep then raw_actions ++ [get_null_action] else raw_actions in
      let observations :=
        if keep then raw_observations
        else take (length raw_actions) raw_observations in
      new_VIMAInstance instance_dir metadata pose_actions observations flags
      = Ok instance
      ∧ length observations = length pose_actions
      ∧ length flags = length pose_actions
      ∧ (pose_actions ≠ [] → last flags = Some success).
Proof.
  unfold Parse.parse_from_instance_dir, Parse._parse_pose_actions,
    Parse._parse_observations. cbn [Parse.keep_null_action].
  destruct (load_trajectory_metadata instance_dir) as [metadata|] eqn:Hmd;
    cbn [mbind result_bind]; [|done].
  destruct (parse_pose_actions instance_dir) as [raw_actions|] eqn:Ha;
    cbn [mbind result_bind]; [|done].
  set (pose_actions :=
         if keep then raw_actions ++ [get_null_action] else raw_actions).
  assert ((if keep then Ok (raw_actions ++ [get_null_action])
           else Ok raw_actions) = Ok pose_actions) as ->.
  { unfold pose_actions. by destruct keep. }
  cbn [mbind result_bind].
  destruct (parse_observations instance_dir) as [raw_observations|] eqn:Ho;
    cbn [mbind result_bind]; [|done].
  set (observations :=
         if keep then raw_observations
         else take (length raw_actions) raw_observations).
  assert ((if negb keep then Ok (take (length pose_actions) raw_observations)
           else Ok raw_observations) = Ok observations) as ->.
  { unfold observations, pose_actions. by destruct keep. }
  cbn [mbind result_bind].
  case_bool_decide as Hlen; cbn [negb]; [|done].
  destruct (metadata_success metadata) as [success|] eqn:Hs;
    cbn [mbind result_bind]; [|done].
  destruct (Parse._parse_success_per_step _ _ _) as [flags|] eqn:Hflags;
    cbn [mbind result_bind]; [|done].
  intros Hnew.
  exists metadata, raw_actions, raw_observations, success, flags.
  repeat (split; [done|]). cbv zeta. fold pose_actions observations.
  apply parse_success_per_step_Ok in Hflags as [Hl Hlast].
  rewrite Nat2Z.id in Hl, Hlast. split; [done|].
  intros Hne. apply Hlast. clearbody pose_actions.
  destruct pose_actions; [done|]. simpl. lia.
Qed.

(** X15.  With metadata, actions and observations loaded, the parser
    raises [ValueError] when the observations are not one more than the
    actions and the null action is kept, or are fewer than the actions and
    it is not; observations beyond the actions are dropped in the latter
    case and the check passes.  A successful trajectory without any action
    then raises [IndexError] when the null action is not kept. *)
Theorem parse_from_instance_dir_mismatch (instance_dir : Path) metadata
    raw_actions raw_observations :
  load_trajectory_metadata instance_dir = Ok metadata →
  parse_pose_actions instance_dir = Ok raw_actions →
  parse_observations instance_dir = Ok raw_observations →
  (length raw_observations ≠ length raw_actions + 1 →
   parse_from_instance_dir (Parse.mkParser true) instance_dir
   = Raise ValueError)
  ∧ (length raw_observations < length raw_actions →
     parse_from_instance_dir (Parse.mkParser false) instance_dir
     = Raise ValueError)
  ∧ (length raw_actions ≤ length raw_observations →
     parse_from_instance_dir (Parse.mkParser false) instance_dir
     = (success ← metadata_success metadata;
        flags ← Parse._parse_success_per_step (Parse.mkParser false)
                  (Z.of_nat (length raw_actions)) success;
        new_VIMAInstance instance_dir metadata raw_actions
          (take (length raw_actions) raw_observations) flags))
  ∧ (raw_actions = [] → metadata_success metadata = Ok true →
     parse_from_instance_dir (Parse.mkParser false) instance_dir
     = Raise IndexError).
Proof.
  intros Hmd Ha Ho.
  unfold Parse.parse_from_instance_dir, Parse._parse_pose_actions,
    Parse._parse_observations. cbn [Parse.keep_null_action negb].
  rewrite Hmd, Ha. cbn [mbind result_bind]. rewrite Ho.
  cbn [mbind result_bind].
  split; [|split; [|split]].
  - intros Hlen. rewrite bool_decide_eq_false_2; [done|].
    rewrite length_app. simpl. lia.
  - intros Hlen. rewrite bool_decide_eq_false_2; [done|].
    rewrite length_take. lia.
  - intros Hlen. rewrite bool_decide_eq_true_2; [done|].
    rewrite length_take. lia.
  - intros -> Hs. cbn. by rewrite Hs.
Qed.
End parser_facts.

(** Two actions and three observations, the null action not kept. *)
Lemma parse_from_instance_dir_lengths_witness :
  scenario_parser [1; 2] [10; 20; 30] (Parse.mkParser false) tt
  = Ok ([1; 2], [10; 20], [false; true])
  ∧ ∃ flags : list bool, length flags = 2 ∧ last flags = Some true.
Proof.
  split; [reflexivity|].
  destruct (parse_from_instance_dir_lengths
              (λ _ : unit, Ok true) (λ _, Ok [1; 2]) (λ _, Ok [10; 20; 30]) 0
              (λ metadata : bool, Ok metadata)
              (λ _ _ pose_actions observations success_per_step,
                 Ok (pose_actions, observations, success_per_step))
              false tt ([1; 2], [10; 20], [false; true]) eq_refl)
    as (metadata & raw_actions & raw_observations & success & flags
        & Hm & Ha & _ & Hs & _ & _ & Hlen & Hlast).
  injection Hm as <-. injection Ha as <-. injection Hs as <-.
  exists flags. split; [exact Hlen|]. by apply Hlast.
Defined.

(** Two actions and one observation. *)
Lemma parse_from_instance_dir_mismatch_witness :
  scenario_parser [1; 2] [10] (Parse.mkParser true) tt = Raise ValueError
  ∧ scenario_parser [1; 2] [10] (Parse.mkParser false) tt = Raise ValueError.
Proof.
  destruct (parse_from_instance_dir_mismatch
              (λ _ : unit, Ok true) (λ _, Ok [1; 2]) (λ _, Ok [10]) 0
              (λ metadata : bool, Ok metadata)
              (λ _ _ pose_actions observations success_per_step,
                 Ok (pose_actions, observations, success_per_step))
              tt true [1; 2] [10] eq_refl eq_refl eq_refl)
    as (Hkeep & Hdrop & _).
  split; [apply Hkeep; cbn; lia|apply Hdrop; cbn; lia].
Defined.

(** ** Splitting and joining *)

Section split_join.
Implicit Types (s w : list char) (ws : list (list char)) (sep : char).

Lemma split_nonempty sep s : split sep s ≠ [].
Proof.
  destruct s as [|c s]; [done|]. cbn [split].
  case_decide; [done|]. by destruct (split sep s).
Qed.

Lemma join_cons sep w ws :
  ws ≠ [] → join [sep] (w :: ws) = w ++ sep :: join [sep] ws.
Proof. by destruct ws. Qed.

Lemma join_split sep s : join [sep] (split sep s) = s.
Proof.
  induction s as [|c s IH]; [done|]. cbn [split].
  pose proof (split_nonempty sep s) as Hne. case_decide as Hc.
  - rewrite join_cons by done. rewrite IH. by subst.
  - destruct (split sep s) as [|w ws] eqn:Hs; [done|].
    destruct ws as [|w' ws].
    + cbn in *. by rewrite IH.
    + rewrite join_cons in IH by done. rewrite join_cons by done.
      cbn [app]. by rewrite IH.
Qed.

Lemma split_no_sep sep s : Forall (λ w, sep ∉ w) (split sep s).
Proof.
  induction s as [|c s IH]; cbn [split].
  - repeat constructor. apply not_elem_of_nil.
  - pose proof (split_nonempty sep s) as Hne. case_decide as Hc.
    + constructor; [apply not_elem_of_nil|done].
    + destruct (split sep s) as [|w ws]; [done|].
      apply Forall_cons in IH as [Hw Hws]. constructor; [|done].
      apply not_elem_of_cons. split; [congruence|done].
Qed.

Lemma split_app_sep sep w s :
  sep ∉ w → split sep (w ++ sep :: s) = w :: split sep s.
Proof.
  induction w as [|c w IH]; intros Hw.
  - cbn [app split]. by rewrite decide_True.
  - apply not_elem_of_cons in Hw as [Hc Hw]. cbn [app split].
    rewrite decide_False by congruence. by rewrite IH.
Qed.

Lemma split_no_sep_word sep w : sep ∉ w → split sep w = [w].
Proof.
  induction w as [|c w IH]; intros Hw; [done|].
  apply not_elem_of_cons in Hw as [Hc Hw]. cbn [split].
  rewrite decide_False by congruence. by rewrite IH.
Qed.

Lemma split_join sep ws :
  ws ≠ [] → Forall (λ w, sep ∉ w) ws → split sep (join [sep] ws) = ws.
Proof.
  intros Hne Hall. induction Hall as [|w ws Hw Hws IH]; [done|].
  destruct ws as [|w' ws].
  - cbn. by apply split_no_sep_word.
  - rewrite join_cons by done. rewrite split_app_sep by done.
    by rewrite IH.
Qed.

Lemma length_join sep ws :
  ws ≠ [] →
  S (length (join [sep] ws)) = sum_list_with (λ w, S (length w)) ws.
Proof.
  intros Hne. induction ws as [|w ws IH]; [done|].
  destruct ws as [|w' ws].
  - cbn. lia.
  - rewrite join_cons by done.
    change (sum_list_with (λ w, S (length w)) (w :: w' :: ws))
      with (S (length w) + sum_list_with (λ w, S (length w)) (w' :: ws)).
    rewrite <- IH by done. rewrite length_app. cbn [length]. lia.
Qed.

Lemma space_not_in_ALPHABET : space ∉ ALPHABET.
Proof.
  intros H. apply list_elem_of_In in H. vm_compute in H.
  repeat (destruct H as [H|H]; [discriminate H|]). exact H.
Qed.
End split_join.

(** ** Reordering the words that are not special *)

Section refill_facts.
Context {T : Type} (f : T → bool).
Implicit Types (ws us : list T).

Lemma length_refill ws us : length (refill f ws us) = length ws.
Proof.
  revert us. induction ws as [|w ws IH]; intros us; [done|].
  cbn [refill]. destruct (f w); [cbn [length]; by rewrite IH|].
  destruct us as [|u us]; cbn [length]; by rewrite IH.
Qed.

Lemma refill_special_fixed ws us i w :
  ws !! i = Some w → f w = true → refill f ws us !! i = Some w.
Proof.
  revert us i. induction ws as [|w0 ws IH]; intros us i Hi Hw; [done|].
  cbn [refill]. destruct i as [|i]; simpl in Hi.
  - injection Hi as ->. by rewrite Hw.
  - destruct (f w0); [by apply IH|]. destruct us; by apply IH.
Qed.

Lemma refill_perm ws us :
  length us = length (filter (λ w, f w = false) ws) →
  refill f ws us ≡ₚ filter (λ w, f w = true) ws ++ us.
Proof.
  revert us. induction ws as [|w ws IH]; intros us Hlen.
  - destruct us; [done|]. done.
  - cbn [refill]. rewrite filter_cons in Hlen. rewrite filter_cons.
    destruct (f w) eqn:Hw.
    + rewrite decide_False in Hlen by done. rewrite decide_True by done.
      cbn [app]. by rewrite IH.
    + rewrite decide_True in Hlen by done. rewrite decide_False by done.
      destruct us as [|u us]; [done|]. simpl in Hlen.
      rewrite IH by lia. by rewrite Permutation_middle.
Qed.

Lemma refill_filter ws us :
  Forall (λ u, f u = false) us →
  length us = length (filter (λ w, f w = false) ws) →
  filter (λ w, f w = false) (refill f ws us) = us.
Proof.
  revert us. induction ws as [|w ws IH]; intros us Hus Hlen.
  - by destruct us.
  - cbn [refill]. rewrite filter_cons in Hlen. destruct (f w) eqn:Hw.
    + rewrite decide_False in Hlen by done.
      rewrite filter_cons, decide_False by (by rewrite Hw). by apply IH.
    + rewrite decide_True in Hlen by done.
      destruct us as [|u us]; [done|]. simpl in Hlen.
      apply Forall_cons in Hus as [Hu Hus].
      rewrite filter_cons, decide_True by done. f_equal. apply IH; [done|lia].
Qed.

(** The first loop collects the places of the special words and the other
    words. *)
Lemma lock_words_gen (l : list T) (i : nat) (lp : list nat) (uw : list T) :
  ∃ lp',
    foldl (λ '(locked_positions, unlocked_words) '(word_index, word),
      let is_special := f word in
      let unlocked_words :=
        if negb is_special then unlocked_words ++ [word]
        else unlocked_words in
      let locked_positions :=
        if is_special then locked_positions ++ [word_index]
        else locked_positions in
      (locked_positions, unlocked_words))
      (lp, uw) (zip (seq i (length l)) l)
    = (lp', uw ++ filter (λ w, f w = false) l)
    ∧ ∀ k, k ∈ lp' ↔ k ∈ lp ∨ ∃ j w, k = i + j ∧ l !! j = Some w ∧ f w = true.
Proof.
  revert i lp uw. induction l as [|w l IH]; intros i lp uw.
  - exists lp. split; [by rewrite app_nil_r|]. intros k. split; [by left|].
    intros [?|(j & w & _ & Hj & _)]; done.
  - destruct (IH (S i) (if f w then lp ++ [i] else lp)
                (if negb (f w) then uw ++ [w] else uw)) as (lp' & Heq & Hlp').
    exists lp'. split.
    + cbn [length seq zip zip_with foldl]. etransitivity; [exact Heq|].
      f_equal. rewrite filter_cons. destruct (f w) eqn:Hw; cbn [negb].
      * by rewrite decide_False.
      * rewrite decide_True by done. by rewrite <- app_assoc.
    + intros k. rewrite Hlp'. split.
      * intros [Hk|(j & w' & -> & Hj & Hw')].
        -- destruct (f w) eqn:Hw; [|by left].
           apply elem_of_app in Hk as [Hk|Hk]; [by left|].
           apply list_elem_of_singleton in Hk as ->.
           right. exists 0, w. by rewrite Nat.add_0_r.
        -- right. exists (S j), w'. split; [lia|done].
      * intros [Hk|(j & w' & -> & Hj & Hw')].
        -- left. destruct (f w); [|done]. apply elem_of_app. by left.
        -- destruct j as [|j]; simpl in Hj.
           ++ injection Hj as ->. left. rewrite Hw'.
              apply elem_of_app. right. rewrite Nat.add_0_r. by left.
           ++ right. exists j, w'. split; [lia|done].
Qed.

Lemma lock_words_spec (ws : list T) :
  ∃ locked,
    Gobbledygook.lock_words ws f = (locked, filter (λ w, f w = false) ws)
    ∧ ∀ k, k ∈ locked ↔ ∃ w, ws !! k = Some w ∧ f w = true.
Proof.
  destruct (lock_words_gen ws 0 [] []) as (lp & Hlp & Hmem).
  exists lp. split; [exact Hlp|]. intros k. rewrite Hmem. split.
  - intros [Hk|(j & w & -> & Hj & Hw)]; [by apply elem_of_nil in Hk|].
    by exists w.
  - intros (w & Hk & Hw). right. by exists k, w.
Qed.

Lemma put_back_locked (locked : list nat) (idx : nat) (st : list T * list T) :
  idx ∈ locked → Gobbledygook.put_back locked idx st = Ok st.
Proof.
  intros Hin. unfold Gobbledygook.put_back. destruct st as [s us].
  rewrite bool_decide_eq_false_2; [done|]. intros Hn. by apply Hn.
Qed.

Lemma put_back_unlocked (locked : list nat) (idx : nat) (s : list T) u us :
  idx ∉ locked →
  Gobbledygook.put_back locked idx (s, u :: us) = Ok (<[idx := u]> s, us).
Proof.
  intros Hin. unfold Gobbledygook.put_back. by rewrite bool_decide_eq_true_2.
Qed.

(** The second loop fills the places that are not locked. *)
Lemma put_back_loop (locked : list nat) (pre rest us : list T) :
  (∀ j w, rest !! j = Some w → (length pre + j ∈ locked ↔ f w = true)) →
  length us = length (filter (λ w, f w = false) rest) →
  for_in (seq (length pre) (length rest)) (Gobbledygook.put_back locked)
    (pre ++ rest, us)
  = Ok (pre ++ refill f rest us, []).
Proof.
  revert pre us. induction rest as [|w rest IH]; intros pre us Hlocked Hlen.
  - destruct us; [done|]. done.
  - cbn [length seq for_in].
    pose proof (Hlocked 0 w eq_refl) as H0. rewrite Nat.add_0_r in H0.
    rewrite filter_cons in Hlen. cbn [refill].
    assert (∀ u us', for_in (seq (S (length pre)) (length rest))
                   (Gobbledygook.put_back locked) (pre ++ u :: rest, us')
                 = for_in (seq (length (pre ++ [u])) (length rest))
                     (Gobbledygook.put_back locked) ((pre ++ [u]) ++ rest, us'))
      as Hshift.
    { intros u us'. rewrite length_app, <- app_assoc. cbn [length app].
      by rewrite Nat.add_1_r. }
    assert (∀ u j w', rest !! j = Some w' →
              (length (pre ++ [u]) + j ∈ locked ↔ f w' = true)) as Hlocked'.
    { intros u j w' Hj. rewrite length_app. cbn [length].
      rewrite <- (Hlocked (S j) w' Hj).
      by replace (length pre + 1 + j) with (length pre + S j) by lia. }
    destruct (f w) eqn:Hw.
    + rewrite decide_False in Hlen by done.
      rewrite put_back_locked by (by apply H0).
      cbn [mbind result_bind]. rewrite Hshift, IH by auto.
      by rewrite <- app_assoc.
    + rewrite decide_True in Hlen by done.
      destruct us as [|u us]; [done|]. simpl in Hlen.
      rewrite put_back_unlocked by (intros Hin; by apply H0 in Hin).
      cbn [mbind result_bind].
      rewrite insert_app_r_alt by done. rewrite Nat.sub_diag. cbn [insert list_insert].
      rewrite Hshift, IH by (auto; lia). by rewrite <- app_assoc.
Qed.
End refill_facts.

Section sequence_facts.
Context {RNG T : Type}.
Variable random_shuffle : RNG → list T → list T * RNG.
Implicit Types (ws : list T) (f : T → bool).

Lemma filter_special_perm f ws :
  filter (λ w, f w = true) ws ++ filter (λ w, f w = false) ws ≡ₚ ws.
Proof.
  induction ws as [|w ws IH]; [done|]. rewrite !filter_cons.
  destruct (f w) eqn:Hw.
  - rewrite decide_True, decide_False by done. cbn [app]. by rewrite IH.
  - rewrite decide_False, decide_True by done.
    rewrite <- Permutation_middle. by rewrite IH.
Qed.

Lemma refill_pattern f ws (us : list T) :
  Forall (λ u, f u = false) us →
  map f (refill f ws us) = map f ws.
Proof.
  revert us. induction ws as [|w ws IH]; intros us Hus; [done|].
  cbn [refill]. destruct (f w) eqn:Hw.
  - cbn [map]. by rewrite Hw, IH.
  - destruct us as [|u us]; cbn [map].
    + by rewrite Hw, IH.
    + apply Forall_cons in Hus as [Hu Hus]. by rewrite Hu, Hw, IH.
Qed.

Lemma randomise_closed (g : RNG) ws f :
  length (random_shuffle g (filter (λ w, f w = false) ws)).1
  = length (filter (λ w, f w = false) ws) →
  Gobbledygook.randomise_non_special_aspects_in_sequence random_shuffle g ws f
  = (Ok (refill f ws (random_shuffle g (filter (λ w, f w = false) ws)).1),
     (random_shuffle g (filter (λ w, f w = false) ws)).2).
Proof.
  intros Hlen. unfold Gobbledygook.randomise_non_special_aspects_in_sequence.
  destruct (lock_words_spec f ws) as (locked & -> & Hlocked).
  destruct (random_shuffle g (filter (λ w, f w = false) ws)) as [us g'].
  cbn [fst snd] in *.
  pose proof (put_back_loop f locked [] ws us) as Hloop.
  cbn [length app] in Hloop. rewrite Hloop; [done| |done].
  intros j w Hj. cbn [length Nat.add]. rewrite Hlocked. split.
  - intros (w' & Hj' & Hw'). congruence.
  - intros Hw. by exists w.
Qed.

Lemma shuffle_unlocked (g : RNG) ws f :
  (∀ g l, (random_shuffle g l).1 ≡ₚ l) →
  length (random_shuffle g (filter (λ w, f w = false) ws)).1
  = length (filter (λ w, f w = false) ws)
  ∧ Forall (λ u, f u = false)
      (random_shuffle g (filter (λ w, f w = false) ws)).1.
Proof.
  intros Hshuffle.
  pose proof (Hshuffle g (filter (λ w, f w = false) ws)) as Hperm.
  split; [by rewrite Hperm|].
  rewrite Hperm. apply Forall_forall. intros u Hu.
  by apply list_elem_of_filter in Hu as [Hu _].
Qed.

Lemma refill_shuffled_perm (g : RNG) ws f :
  (∀ g l, (random_shuffle g l).1 ≡ₚ l) →
  refill f ws (random_shuffle g (filter (λ w, f w = false) ws)).1 ≡ₚ ws.
Proof.
  intros Hshuffle. destruct (shuffle_unlocked g ws f Hshuffle) as [Hlen _].
  rewrite refill_perm by done. rewrite (Hshuffle g).
  apply filter_special_perm.
Qed.

Lemma refill_lookup (P : T → Prop) f ws (us : list T) i w x :
  Forall P us → ws !! i = Some w → refill f ws us !! i = Some x →
  x = w ∨ P x.
Proof.
  revert us i. induction ws as [|w0 ws IH]; intros us i Hus Hi Hx; [done|].
  cbn [refill] in Hx. destruct (f w0).
  - destruct i as [|i]; simpl in Hi, Hx; [left; congruence|].
    by apply (IH us i).
  - destruct us as [|u us].
    + destruct i as [|i]; simpl in Hi, Hx; [left; congruence|].
      by apply (IH [] i).
    + apply Forall_cons in Hus as [Hu Hus].
      destruct i as [|i]; simpl in Hi, Hx; [right; congruence|].
      by apply (IH us i).
Qed.

(** X16. [randomise_non_special_aspects_in_sequence], with a
    [random.shuffle] that permutes its list, returns a list and raises
    nothing ([pop(0)] never meets an empty list); the result has the length
    of the sequence and is a permutation of it, every special word is at
    the place where it was, the places of the other words hold other
    words, and read from left to right these are the shuffled words. *)
Theorem randomise_keeps_special_words (g : RNG) ws f
    (Hshuffle : ∀ g l, (random_shuffle g l).1 ≡ₚ l) :
  ∃ out,
    (Gobbledygook.randomise_non_special_aspects_in_sequence
       random_shuffle g ws f).1 = Ok out
    ∧ length out = length ws
    ∧ out ≡ₚ ws
    ∧ (∀ i w, ws !! i = Some w → f w = true → out !! i = Some w)
    ∧ map f out = map f ws
    ∧ filter (λ w, f w = false) out
      = (random_shuffle g (filter (λ w, f w = false) ws)).1.
Proof.
  destruct (shuffle_unlocked g ws f Hshuffle) as [Hlen Hall].
  rewrite (randomise_closed g ws f Hlen). cbn [fst].
  eexists. split; [reflexivity|]. split; [apply length_refill|].
  split; [|split; [|split]].
  - by apply refill_shuffled_perm.
  - intros i w Hi Hw. by apply refill_special_fixed.
  - by apply refill_pattern.
  - by apply refill_filter.
Qed.
End sequence_facts.

(** A shuffle that reverses its list is a permutation; on the sequence
    5, 2, 7, 4 with the odd numbers special. *)
Lemma randomise_keeps_special_words_witness :
  ∃ out,
    (Gobbledygook.randomise_non_special_aspects_in_sequence
       (λ (g : unit) (l : list nat), (reverse l, g)) tt [5; 2; 7; 4] Nat.odd).1
    = Ok out
    ∧ length out = length [5; 2; 7; 4]
    ∧ out ≡ₚ [5; 2; 7; 4]
    ∧ (∀ i w, [5; 2; 7; 4] !! i = Some w → Nat.odd w = true →
         out !! i = Some w)
    ∧ map Nat.odd out = map Nat.odd [5; 2; 7; 4]
    ∧ filter (λ w, Nat.odd w = false) out
      = ((λ (g : unit) (l : list nat), (reverse l, g)) tt
           (filter (λ w, Nat.odd w = false) [5; 2; 7; 4])).1.
Proof.
  apply (randomise_keeps_special_words
           (λ (g : unit) (l : list nat), (reverse l, g)) tt [5; 2; 7; 4]
           Nat.odd).
  intros g l. cbn [fst]. apply reverse_Permutation.
Defined.

(** ** Prompts turned into gobbledygook *)

Section gobbledygook_facts.
Context {RNG : Type}.
Variable random_choices : RNG → list char → nat → list char * RNG.
Variable LEFT_SYMBOL : list char.
Implicit Types (prompt w : list char) (ws : list (list char)).

Lemma gobbledygook_of_length w w' :
  gobbledygook_of LEFT_SYMBOL w w' → length w' = length w.
Proof.
  unfold gobbledygook_of.
  destruct (startswith w LEFT_SYMBOL); [by intros ->|by intros [? _]].
Qed.

Lemma gobbledygook_of_no_space w w' :
  space ∉ w → gobbledygook_of LEFT_SYMBOL w w' → space ∉ w'.
Proof.
  unfold gobbledygook_of.
  destruct (startswith w LEFT_SYMBOL); [by intros ? ->|].
  intros _ [_ Hall] Hin. rewrite Forall_forall in Hall.
  apply space_not_in_ALPHABET. by apply Hall.
Qed.

Lemma gobbledygook_words ws ws' :
  Forall (λ w, space ∉ w) ws →
  Forall2 (gobbledygook_of LEFT_SYMBOL) ws ws' →
  Forall (λ w, space ∉ w) ws'
  ∧ sum_list_with (λ w, S (length w)) ws'
    = sum_list_with (λ w, S (length w)) ws.
Proof.
  intros Hws HR. induction HR as [|w w' ws ws' Hw HR IH]; [done|].
  apply Forall_cons in Hws as [Hw0 Hws]. destruct (IH Hws) as [IH1 IH2].
  split.
  - constructor; [by eapply gobbledygook_of_no_space|done].
  - cbn [sum_list_with]. by rewrite IH2, (gobbledygook_of_length w w').
Qed.

Lemma replace_word_loop (pre rest : list (list char)) (g : RNG) :
  (∀ g k, length (random_choices g ALPHABET k).1 = k
          ∧ Forall (λ c, c ∈ ALPHABET) (random_choices g ALPHABET k).1) →
  ∃ rest' g',
    foldl (Gobbledygook.replace_word random_choices LEFT_SYMBOL)
      (pre ++ rest, g) (seq (length pre) (length rest))
    = (pre ++ rest', g')
    ∧ Forall2 (gobbledygook_of LEFT_SYMBOL) rest rest'.
Proof.
  intros Hchoices. revert pre g.
  induction rest as [|w rest IH]; intros pre g.
  - exists [], g. by split.
  - cbn [length seq foldl].
    assert (∃ w' g1,
      Gobbledygook.replace_word random_choices LEFT_SYMBOL
        (pre ++ w :: rest, g) (length pre) = ((pre ++ [w']) ++ rest, g1)
      ∧ gobbledygook_of LEFT_SYMBOL w w') as (w' & g1 & -> & Hw').
    { unfold Gobbledygook.replace_word, gobbledygook_of.
      rewrite list_lookup_middle by done.
      destruct (startswith w LEFT_SYMBOL).
      - exists w, g. by rewrite <- app_assoc.
      - unfold Gobbledygook._generate_random_characters.
        pose proof (Hchoices g (length w)) as [Hlen Hall].
        destruct (random_choices g ALPHABET (length w)) as [new g1].
        exists new, g1. cbn [fst] in *.
        rewrite insert_app_r_alt by done. rewrite Nat.sub_diag.
        cbn [insert list_insert]. by rewrite <- app_assoc. }
    destruct (IH (pre ++ [w']) g1) as (rest' & g' & Heq & HR).
    rewrite length_app, Nat.add_1_r in Heq. cbn [length] in Heq.
    exists (w' :: rest'), g'. split; [|by constructor].
    rewrite Heq. by rewrite <- app_assoc.
Qed.

Lemma convert_word_shape (g : RNG) prompt :
  (∀ g k, length (random_choices g ALPHABET k).1 = k
          ∧ Forall (λ c, c ∈ ALPHABET) (random_choices g ALPHABET k).1) →
  length (Gobbledygook.convert_language_prompt_to_gobbledygook
            random_choices LEFT_SYMBOL g prompt).1 = length prompt
  ∧ Forall2 (gobbledygook_of LEFT_SYMBOL) (split space prompt)
      (split space (Gobbledygook.convert_language_prompt_to_gobbledygook
                      random_choices LEFT_SYMBOL g prompt).1).
Proof.
  intros Hchoices.
  unfold Gobbledygook.convert_language_prompt_to_gobbledygook.
  destruct (replace_word_loop [] (split space prompt) g Hchoices)
    as (ws' & g' & Heq & HR).
  cbn [length app] in Heq. rewrite Heq. cbn [fst].
  destruct (gobbledygook_words _ _ (split_no_sep space prompt) HR)
    as [Hns Hsum].
  assert (ws' ≠ []) as Hne.
  { intros ->. apply Forall2_length in HR.
    by destruct (split space prompt) eqn:Hs; [apply split_nonempty in Hs|]. }
  split.
  - apply Nat.succ_inj. rewrite length_join by done. rewrite Hsum.
    rewrite <- (length_join space (split space prompt))
      by apply split_nonempty.
    by rewrite join_split.
  - by rewrite split_join.
Qed.

(** X17. [convert_language_prompt_to_gobbledygook], with a
    [random.choices] that gives [k] elements of the population: the
    result has the length of the prompt and as many words, a word that
    starts with [LEFT_SYMBOL] is unchanged at its place, and every other
    word is replaced by letters of the alphabet in the same number. *)
Theorem gobbledygook_keeps_word_shape (g : RNG) prompt
    (Hchoices : ∀ g k,
       length (random_choices g ALPHABET k).1 = k
       ∧ Forall (λ c, c ∈ ALPHABET) (random_choices g ALPHABET k).1) :
  let out :=
    (Gobbledygook.convert_language_prompt_to_gobbledygook
       random_choices LEFT_SYMBOL g prompt).1 in
  length out = length prompt
  ∧ Forall2 (gobbledygook_of LEFT_SYMBOL)
      (split space prompt) (split space out).
Proof. exact (convert_word_shape g prompt Hchoices). Qed.

Section word_transform.
Variable random_shuffle : RNG → list (list char) → list (list char) * RNG.

Lemma randomise_order_closed (g : RNG) prompt :
  (∀ g l, (random_shuffle g l).1 ≡ₚ l) →
  ∃ ws',
    ws' = refill (λ w, startswith w LEFT_SYMBOL) (split space prompt)
            (random_shuffle g
               (filter (λ w, startswith w LEFT_SYMBOL = false)
                  (split space prompt))).1
    ∧ Gobbledygook._randomise_order_of_non_special_words LEFT_SYMBOL
        random_shuffle g prompt
      = (Ok (join [space] ws'),
         (random_shuffle g
            (filter (λ w, startswith w LEFT_SYMBOL = false)
               (split space prompt))).2)
    ∧ split space (join [space] ws') = ws'
    ∧ length (join [space] ws') = length prompt.
Proof.
  intros Hshuffle. eexists. split; [reflexivity|].
  pose proof (refill_shuffled_perm random_shuffle g (split space prompt)
                (λ w, startswith w LEFT_SYMBOL) Hshuffle) as Hperm.
  destruct (shuffle_unlocked random_shuffle g (split space prompt)
              (λ w, startswith w LEFT_SYMBOL) Hshuffle) as [Hlen _].
  assert (refill (λ w, startswith w LEFT_SYMBOL) (split space prompt)
            (random_shuffle g
               (filter (λ w, startswith w LEFT_SYMBOL = false)
                  (split space prompt))).1 ≠ []) as Hne.
  { intros Hnil. apply (f_equal length) in Hnil.
    rewrite length_refill in Hnil.
    by destruct (split space prompt) eqn:Hs; [apply split_nonempty in Hs|]. }
  split; [|split].
  - unfold Gobbledygook._randomise_order_of_non_special_words.
    by rewrite (randomise_closed random_shuffle g (split space prompt)
                  (λ w, startswith w LEFT_SYMBOL) Hlen).
  - apply split_join; [done|]. rewrite Hperm. apply split_no_sep.
  - apply Nat.succ_inj. rewrite length_join by done. rewrite Hperm.
    rewrite <- (length_join space (split space prompt))
      by apply split_nonempty.
    by rewrite join_split.
Qed.

(** X18. [_randomise_order_of_non_special_words], with a [random.shuffle]
    that permutes its list, returns a prompt of the same length whose
    words are a permutation of the words of the prompt, with every word
    that starts with [LEFT_SYMBOL] at the place where it was. *)
Theorem randomise_order_keeps_special_words (g : RNG) prompt
    (Hshuffle : ∀ g l, (random_shuffle g l).1 ≡ₚ l) :
  ∃ out,
    (Gobbledygook._randomise_order_of_non_special_words LEFT_SYMBOL
       random_shuffle g prompt).1 = Ok out
    ∧ length out = length prompt
    ∧ split space out ≡ₚ split space prompt
    ∧ ∀ i w, split space prompt !! i = Some w →
        startswith w LEFT_SYMBOL = true → split space out !! i = Some w.
Proof.
  destruct (randomise_order_closed g prompt Hshuffle)
    as (ws' & Hws' & -> & Hsplit & Hlen).
  exists (join [space] ws'). cbn [fst]. split; [done|]. split; [done|].
  rewrite Hsplit, Hws'. split.
  - by apply refill_shuffled_perm.
  - intros i w Hi Hw. by apply refill_special_fixed.
Qed.

Context {VIMAInstance : Type}.
Variable prompt_of : VIMAInstance → list char.
Variable model_copy_prompt : VIMAInstance → list char → VIMAInstance.

(** X19. [GobbledyGookPromptWordTransform.__call__], with a
    [random.choices] that gives [k] elements of the population and a
    [random.shuffle] that permutes its list, returns the instance with a
    new prompt, of the same length and with as many words; a word that
    starts with [LEFT_SYMBOL] is unchanged at its place, every other place
    holds letters of the alphabet only, and the lengths of the words are
    those of the prompt in another order. *)
Theorem call_keeps_special_words (g : RNG) (instance : VIMAInstance)
    (Hchoices : ∀ g k,
       length (random_choices g ALPHABET k).1 = k
       ∧ Forall (λ c, c ∈ ALPHABET) (random_choices g ALPHABET k).1)
    (Hshuffle : ∀ g l, (random_shuffle g l).1 ≡ₚ l) :
  ∃ out,
    (Gobbledygook.__call__ random_choices LEFT_SYMBOL prompt_of
       model_copy_prompt random_shuffle g instance).1
    = Ok (model_copy_prompt instance out)
    ∧ length out = length (prompt_of instance)
    ∧ length (split space out) = length (split space (prompt_of instance))
    ∧ map length (split space out)
      ≡ₚ map length (split space (prompt_of instance))
    ∧ ∀ i w, split space (prompt_of instance) !! i = Some w →
        if startswith w LEFT_SYMBOL then split space out !! i = Some w
        else ∃ w', split space out !! i = Some w'
                   ∧ Forall (λ c, c ∈ ALPHABET) w'.
Proof.
  unfold Gobbledygook.__call__.
  pose proof (convert_word_shape g (prompt_of instance)
                Hchoices) as [Hlen1 HR].
  destruct (Gobbledygook.convert_language_prompt_to_gobbledygook
              random_choices LEFT_SYMBOL g (prompt_of instance))
    as [p1 g1]. cbn [fst] in Hlen1, HR.
  destruct (randomise_order_closed g1 p1 Hshuffle)
    as (ws' & Hws' & -> & Hsplit & Hlen).
  exists (join [space] ws'). cbn [fst mbind result_bind].
  split; [done|]. split; [congruence|]. rewrite Hsplit.
  pose proof (refill_shuffled_perm random_shuffle g1 (split space p1)
                (λ w, startswith w LEFT_SYMBOL) Hshuffle) as Hperm.
  cbv beta in Hperm. rewrite <- Hws' in Hperm.
  assert (map length (split space p1)
          = map length (split space (prompt_of instance))) as Hlens.
  { clear -HR. induction HR as [|w w' ws ws1 Hw HR IH]; [done|].
    cbn [map]. by rewrite IH, (gobbledygook_of_length w w'). }
  split; [|split].
  - rewrite Hperm. by apply (f_equal length) in Hlens; rewrite !length_map in Hlens.
  - by rewrite Hperm, Hlens.
  - intros i w Hi.
    destruct (Forall2_lookup_l _ _ _ _ _ HR Hi) as (w1 & Hi1 & Hw1).
    unfold gobbledygook_of in Hw1.
    destruct (startswith w LEFT_SYMBOL) eqn:Hw.
    + subst w1. rewrite Hws'. by apply refill_special_fixed.
    + destruct Hw1 as [_ Hletters].
      destruct (lookup_lt_is_Some_2 ws' i) as [w2 Hi2].
      { rewrite Hws', length_refill. by eapply lookup_lt_Some. }
      exists w2. split; [done|].
      destruct (shuffle_unlocked random_shuffle g1 (split space p1)
                  (λ w, startswith w LEFT_SYMBOL) Hshuffle) as [_ Hall].
      assert (Forall (λ u, u ∈ split space p1
                           ∧ startswith u LEFT_SYMBOL = false)
                (random_shuffle g1
                   (filter (λ w, startswith w LEFT_SYMBOL = false)
                      (split space p1))).1) as Hus.
      { rewrite (Hshuffle g1). apply Forall_forall. intros u Hu.
        apply list_elem_of_filter in Hu as [Hu Hin]. by split. }
      rewrite Hws' in Hi2.
      destruct (refill_lookup _ _ _ _ _ _ _ Hus Hi1 Hi2) as [->|[Hin Hns]];
        [done|].
      apply list_elem_of_lookup in Hin as [j Hj].
      destruct (Forall2_lookup_r _ _ _ _ _ HR Hj) as (w0 & Hj0 & Hw0).
      unfold gobbledygook_of in Hw0.
      destruct (startswith w0 LEFT_SYMBOL) eqn:Hw0s; [congruence|].
      by destruct Hw0.
Qed.
End word_transform.
End gobbledygook_facts.

Lemma scenario_choices_letters (g : unit) (k : nat) :
  length (scenario_choices g ALPHABET k).1 = k
  ∧ Forall (λ c, c ∈ ALPHABET) (scenario_choices g ALPHABET k).1.
Proof.
  cbn [scenario_choices fst]. split; [apply length_replicate|].
  apply Forall_replicate. apply list_elem_of_In. vm_compute. by left.
Qed.

Lemma scenario_shuffle_perm {T} (g : unit) (l : list T) :
  (scenario_shuffle g l).1 ≡ₚ l.
Proof. apply reverse_Permutation. Qed.

(** "put {a} in" becomes "AAA {a} AA". *)
Lemma gobbledygook_keeps_word_shape_witness :
  let out :=
    (Gobbledygook.convert_language_prompt_to_gobbledygook
       scenario_choices scenario_symbol tt scenario_prompt).1 in
  length out = length scenario_prompt
  ∧ Forall2 (gobbledygook_of scenario_symbol)
      (split space scenario_prompt) (split space out).
Proof.
  apply (gobbledygook_keeps_word_shape scenario_choices scenario_symbol tt
           scenario_prompt).
  apply scenario_choices_letters.
Defined.

(** "put {a} in" becomes "in {a} put". *)
Lemma randomise_order_keeps_special_words_witness :
  ∃ out,
    (Gobbledygook._randomise_order_of_non_special_words scenario_symbol
       scenario_shuffle tt scenario_prompt).1 = Ok out
    ∧ length out = length scenario_prompt
    ∧ split space out ≡ₚ split space scenario_prompt
    ∧ ∀ i w, split space scenario_prompt !! i = Some w →
        startswith w scenario_symbol = true → split space out !! i = Some w.
Proof.
  apply (randomise_order_keeps_special_words scenario_symbol
           scenario_shuffle tt scenario_prompt).
  apply scenario_shuffle_perm.
Defined.

(** An instance that is its prompt: "put {a} in" becomes "AA {a} AAA". *)
Lemma call_keeps_special_words_witness :
  ∃ out,
    (Gobbledygook.__call__ scenario_choices scenario_symbol
       (λ instance : list char, instance) (λ _ prompt, prompt)
       scenario_shuffle tt scenario_prompt).1 = Ok out
    ∧ length out = length scenario_prompt.
Proof.
  destruct (call_keeps_special_words scenario_choices scenario_symbol
              scenario_shuffle (λ instance : list char, instance)
              (λ _ prompt, prompt) tt scenario_prompt
              scenario_choices_letters scenario_shuffle_perm)
    as (out & Hout & Hlen & _).
  by exists out.
Defined.

(** ** The cropped images of an image token *)

Section image_token_facts.
Context {A Bbox View : Type} `{!EqDecision View}.
Local Abbreviation ImageToken := (@Token.ImageToken A Bbox View).

(** X20. [get_cropped_images_for_view] raises only [RuntimeError], and
    does so exactly when no object of the token has the view or two
    objects of the view have cropped images of different shapes; a result
    has as leading extent the number of objects of the view, which is at
    least one and at most [len] of the token, then the shape shared by the
    cropped images of the view, and holds their data in the order of the
    objects. *)
Theorem cropped_images_for_view (self : ImageToken) (v : View) :
  match Token.get_cropped_images_for_view self v with
  | Ok r =>
      ∃ s, shape r = length (Token.get_objects_for_view self v) :: s
        ∧ 0 < length (Token.get_objects_for_view self v) ≤ Token.__len__ self
        ∧ (∀ obj, obj ∈ Token.objects self → Token.view obj = v →
             shape (Token.cropped_image obj) = s)
        ∧ data r
          = concat (map (λ obj, data (Token.cropped_image obj))
                      (Token.get_objects_for_view self v))
  | Raise e =>
      e = RuntimeError
      ∧ (Token.get_objects_for_view self v = []
         ∨ ∃ o1 o2, o1 ∈ Token.objects self ∧ o2 ∈ Token.objects self
             ∧ Token.view o1 = v ∧ Token.view o2 = v
             ∧ shape (Token.cropped_image o1)
               ≠ shape (Token.cropped_image o2))
  end.
Proof.
  unfold Token.get_cropped_images_for_view, Token.__len__.
  pose proof (length_filter (λ obj, Token.view obj = v) (Token.objects self))
    as Hle.
  assert (∀ obj, obj ∈ Token.get_objects_for_view self v ↔
                 Token.view obj = v ∧ obj ∈ Token.objects self) as Hmem.
  { intros obj. unfold Token.get_objects_for_view.
    apply (list_elem_of_filter (λ obj, Token.view obj = v)). }
  fold (Token.get_objects_for_view self v) in Hle.
  destruct (Token.get_objects_for_view self v) as [|o0 os] eqn:Hos.
  { split; [done|by left]. }
  cbn [map stack]. case_decide as Hall.
  - exists (shape (Token.cropped_image o0)). cbn [shape data].
    split; [cbn [length]; by rewrite length_map|].
    split; [cbn [length] in *; lia|].
    split.
    + intros obj Hin Hv. rewrite Forall_forall in Hall.
      apply (Hall (Token.cropped_image obj)).
      change (Token.cropped_image o0 :: map Token.cropped_image os)
        with (map Token.cropped_image (o0 :: os)).
      apply list_elem_of_fmap. exists obj. split; [done|]. by apply Hmem.
    + by rewrite map_map.
  - split; [done|]. right.
    apply not_Forall_Exists in Hall; [|apply _].
    apply Exists_exists in Hall as (t & Hin & Hne). cbn in Hne.
    change (Token.cropped_image o0 :: map Token.cropped_image os)
      with (map Token.cropped_image (o0 :: os)) in Hin.
    apply list_elem_of_fmap in Hin as (o1 & -> & Hin1).
    apply Hmem in Hin1 as [Hv1 Hin1].
    assert (o0 ∈ o0 :: os) as Hin0 by constructor.
    apply Hmem in Hin0 as [Hv0 Hin0].
    by exists o1, o0.
Qed.
End image_token_facts.
